(** * docsync: scan, index, locate and export of tagged documentation blocks

    A shallow embedding of [docsync/docsync.py].

    Python strings are modelled as lists of characters, a character being
    an [ascii] code point (texts over code points 0..255); offsets and
    lengths are [nat], the line numbers returned by [search_hdr] are [Z]
    because the code computes [line_num - 1], which can be negative.  The
    session object [Docsync] is a record threaded through the methods; an
    attribute that has not been assigned yet is [None] in the field
    [funcs], and reading it is the error [AttributeError]. *)

From Stdlib Require Import Ascii String ZArith Lia.
From stdpp Require Import base option list gmap.

Local Open Scope nat_scope.

Abbreviation str := (list ascii).

(** A string literal of the source, as a list of characters. *)
Definition lit (s : string) : str := list_ascii_of_string s.

Definition newline : ascii := ascii_of_nat 10.

(** ** Character classes of Python's [re] on [str] patterns *)

Definition between (lo hi n : nat) : bool := (lo <=? n) && (n <=? hi).

(** [\s]: the code points for which [str.isspace] holds. *)
Definition is_space (c : ascii) : bool :=
  let n := nat_of_ascii c in
  between 9 13 n || between 28 32 n || (n =? 133) || (n =? 160).

(** [\w]: the code points for which [str.isalnum] holds, and [_]. *)
Definition is_word (c : ascii) : bool :=
  let n := nat_of_ascii c in
  between 48 57 n || between 65 90 n || between 97 122 n || (n =? 95)
  || (n =? 170) || between 178 179 n || (n =? 181) || between 185 186 n
  || between 188 190 n || between 192 214 n || between 216 246 n
  || between 248 255 n.

(** [.] under [re.DOTALL]: every character. *)
Definition any_char (_ : ascii) : bool := true.

(** ** The pattern language used by [func_re]

    Every quantifier of [func_re] applies to a single-character class, the
    only alternation is between two literals, and there is one capturing
    group; a pattern is a sequence of such items. *)

Inductive quant : Type :=
  | One        (* x   *)
  | Opt        (* x?  *)
  | Star       (* x*  *)
  | Plus       (* x+  *)
  | LazyStar.  (* x*? *)

Inductive item : Type :=
  | Cls (p : ascii -> bool) (q : quant)
  | Alt (a b : str)
  | GroupOpen
  | GroupClose.

Definition chr (c : ascii) : item := Cls (Ascii.eqb c) One.

(** [func_re], line by line ([re.VERBOSE]: blanks and comments of the
    pattern are dropped; [re.DOTALL]: [.] matches the line break). *)
Definition func_re : list item :=
  (* /\*+ *)
  [chr "/"; Cls (Ascii.eqb "*") Plus] ++
  (* \s+\[(?:docimport|docexport)\s+\w*\]\s+ *)
  [Cls is_space Plus; chr "["; Alt (lit "docimport") (lit "docexport");
   Cls is_space Plus; Cls is_word Star; chr "]"; Cls is_space Plus] ++
  (* \*//\*\* *)
  [chr "*"; chr "/"; chr "/"; chr "*"; chr "*"] ++
  (* .*? *)
  [Cls any_char LazyStar] ++
  (* \*+/\n *)
  [Cls (Ascii.eqb "*") Plus; chr "/"; chr newline] ++
  (* \w+ \s* [*]? \s* (?P<name>\w+) \(.*?\);? *)
  [Cls is_word Plus; Cls is_space Star; Cls (Ascii.eqb "*") Opt;
   Cls is_space Star; GroupOpen; Cls is_word Plus; GroupClose;
   chr "("; Cls any_char LazyStar; chr ")"; Cls (Ascii.eqb ";") Opt].

(** ** The backtracking matcher

    The matcher is written in continuation-passing style: [k pos s m] runs
    the rest of the pattern at offset [pos], where [s] is the text from
    [pos] on and [m] holds the marks of the capturing group.  The first
    alternative that lets the whole pattern succeed wins, greedy
    quantifiers trying the longest repetition first and lazy ones the
    shortest. *)

Definition marks : Type := nat * nat.
Definition cont : Type := nat -> str -> marks -> option (nat * marks).

Definition orelse {A} (x : option A) (y : option A) : option A :=
  match x with Some r => Some r | None => y end.

Fixpoint greedy (p : ascii -> bool) (k : cont) (pos : nat) (s : str) (m : marks)
  : option (nat * marks) :=
  match s with
  | a :: s' =>
      if p a then orelse (greedy p k (S pos) s' m) (k pos s m) else k pos s m
  | [] => k pos s m
  end.

Fixpoint lazy (p : ascii -> bool) (k : cont) (pos : nat) (s : str) (m : marks)
  : option (nat * marks) :=
  orelse (k pos s m)
    match s with
    | a :: s' => if p a then lazy p k (S pos) s' m else None
    | [] => None
    end.

(** [s.startswith(pre)] *)
Fixpoint startswith (s pre : str) {struct pre} : bool :=
  match pre, s with
  | [], _ => true
  | c :: pre', d :: s' => Ascii.eqb c d && startswith s' pre'
  | _ :: _, [] => false
  end.

Definition literal (a : str) (k : cont) : cont := fun pos s m =>
  if startswith s a then k (pos + length a) (drop (length a) s) m else None.

Definition step (it : item) (k : cont) : cont :=
  match it with
  | Cls p One => fun pos s m =>
      match s with
      | a :: s' => if p a then k (S pos) s' m else None
      | [] => None
      end
  | Cls p Opt => fun pos s m =>
      match s with
      | a :: s' => if p a then orelse (k (S pos) s' m) (k pos s m) else k pos s m
      | [] => k pos s m
      end
  | Cls p Star => greedy p k
  | Cls p Plus => fun pos s m =>
      match s with
      | a :: s' => if p a then greedy p k (S pos) s' m else None
      | [] => None
      end
  | Cls p LazyStar => lazy p k
  | Alt a b => fun pos s m => orelse (literal a k pos s m) (literal b k pos s m)
  | GroupOpen => fun pos s m => k pos s (pos, snd m)
  | GroupClose => fun pos s m => k pos s (fst m, pos)
  end.

Definition accept : cont := fun pos _ m => Some (pos, m).

Fixpoint run (re : list item) : cont :=
  match re with
  | [] => accept
  | it :: rest => step it (run rest)
  end.

(** A match object: its span and the span of the group [name]. *)
Record Match : Type := mkMatch {
  m_start : nat;
  m_end : nat;
  m_name : marks
}.

(** [pattern.match] anchored at offset [pos]; [s] is [text[pos:]]. *)
Definition match_at (re : list item) (pos : nat) (s : str) : option Match :=
  match run re pos s (0, 0) with
  | Some (e, m) => Some (mkMatch pos e m)
  | None => None
  end.

(** [pattern.finditer]: the matches found from left to right, each search
    starting where the previous match ended.  [skip] counts the characters
    of the last match still to step over; a match of [func_re] is never
    empty, so the treatment of empty matches is not modelled. *)
Fixpoint finditer_from (re : list item) (pos skip : nat) (s : str) : list Match :=
  match skip with
  | S skip' =>
      match s with
      | [] => []
      | _ :: s' => finditer_from re (S pos) skip' s'
      end
  | 0 =>
      match match_at re pos s with
      | Some mt =>
          mt :: match s with
                | [] => []
                | _ :: s' => finditer_from re (S pos) (m_end mt - pos - 1) s'
                end
      | None =>
          match s with
          | [] => []
          | _ :: s' => finditer_from re (S pos) 0 s'
          end
      end
  end.

Definition finditer (re : list item) (text : str) : list Match :=
  finditer_from re 0 0 text.

(** [text[a:b]] for [a <= b]. *)
Definition slice (text : str) (a b : nat) : str := take (b - a) (drop a text).

(** ** String methods used by the code *)

(** [s.split(sep)] for a one-character separator. *)
Fixpoint split (sep : ascii) (s : str) : list str :=
  match s with
  | [] => [[]]
  | c :: s' =>
      if Ascii.eqb c sep then [] :: split sep s'
      else match split sep s' with
           | l :: ls => (c :: l) :: ls
           | [] => [[c]]
           end
  end.

(** [sep.join(ls)] *)
Fixpoint join (sep : str) (ls : list str) : str :=
  match ls with
  | [] => []
  | [l] => l
  | l :: ls' => l ++ sep ++ join sep ls'
  end.

(** [s.replace(old, new)] for a non-empty [old]: the occurrences of [old]
    are replaced from left to right, an occurrence starting only after the
    end of the previous one.  [skip] counts the characters of the last
    occurrence still to step over. *)
Fixpoint replace_from (old new : str) (skip : nat) (s : str) : str :=
  match s with
  | [] => []
  | c :: s' =>
      match skip with
      | S skip' => replace_from old new skip' s'
      | 0 =>
          if startswith s old then new ++ replace_from old new (length old - 1) s'
          else c :: replace_from old new 0 s'
      end
  end.

Definition replace (s old new : str) : str := replace_from old new 0 s.

(** ** The data model *)

(** [Func]: a matched function within the text. *)
Record Func : Type := mkFunc {
  name : str;
  span : nat * nat;
  substring : str
}.

(** The attributes of a [Docsync] object.  [funcs] is assigned by [search]
    only, so it is absent ([None]) on a new object. *)
Record Docsync : Type := mkDocsync {
  start : option nat;
  end_ : option nat;
  funcs : option (list Func)
}.

Definition set_start (v : option nat) (self : Docsync) : Docsync :=
  mkDocsync v (end_ self) (funcs self).
Definition set_end (v : option nat) (self : Docsync) : Docsync :=
  mkDocsync (start self) v (funcs self).
Definition set_funcs (v : option (list Func)) (self : Docsync) : Docsync :=
  mkDocsync (start self) (end_ self) v.

(** [Docsync.__init__] *)
Definition init : Docsync := mkDocsync None None None.

(** ** Exceptions *)

Inductive exn : Type := AttributeError | TypeError.

Inductive res (A : Type) : Type :=
  | Ok (a : A)
  | Raise (e : exn).
Arguments Ok {A} a.
Arguments Raise {A} e.

#[global] Instance res_ret : MRet res := fun _ a => Ok a.
#[global] Instance res_bind : MBind res := fun _ _ f x =>
  match x with
  | Ok a => f a
  | Raise e => Raise e
  end.

(** Reading [self.funcs]. *)
Definition get_funcs (self : Docsync) : res (list Func) :=
  match funcs self with
  | Some fs => Ok fs
  | None => Raise AttributeError
  end.

(** ** [Docsync.search] *)

(** [match.group(0)] and [match.group('name')] *)
Definition group0 (text : str) (m : Match) : str :=
  slice text (m_start m) (m_end m).
Definition group_name (text : str) (m : Match) : str :=
  slice text (fst (m_name m)) (snd (m_name m)).

Definition to_func (text : str) (m : Match) : Func :=
  mkFunc (group_name text m) (m_start m, m_end m) (group0 text m).

(** The body of the loop over the matches. *)
Definition search_body (text : str) (self : Docsync) (m : Match) : res Docsync :=
  let self :=
    match start self with
    | None => set_start (Some (m_start m)) self
    | Some _ => self
    end in
  let f := to_func text m in
  fs ← get_funcs self;
  mret (set_funcs (Some (fs ++ [f])) self).

(** The loop; [last] is the loop variable [match] after the loop. *)
Fixpoint search_loop (text : str) (ms : list Match) (self : Docsync)
    (last : option Match) : res (Docsync * option Match) :=
  match ms with
  | [] => mret (self, last)
  | m :: ms' =>
      self' ← search_body text self m;
      search_loop text ms' self' (Some m)
  end.

Definition search (self : Docsync) (text : str) : res (Docsync * nat) :=
  let self := set_funcs (Some []) self in
  '(self, last) ← search_loop text (finditer func_re text) self None;
  let self :=
    match last with
    | Some m => set_end (Some (m_end m)) self
    | None => self
    end in
  fs ← get_funcs self;
  mret (self, length fs).

(** ** [Docsync._index_str] *)

Definition index_body (acc : gmap nat (nat * str) * nat) (e : nat * str)
  : gmap nat (nat * str) * nat :=
  let '(index_dict, index_count) := acc in
  let '(line_num, line) := e in
  (<[index_count := (line_num, line)]> index_dict, index_count + (length line + 1)).

(** [enumerate(lines)], counting from [n]. *)
Fixpoint enumerate_from {A} (n : nat) (l : list A) : list (nat * A) :=
  match l with
  | [] => []
  | x :: l' => (n, x) :: enumerate_from (S n) l'
  end.

Definition _index_str (text : str) : gmap nat (nat * str) :=
  let lines := split newline text in
  fst (foldl index_body (∅, 0) (enumerate_from 0 lines)).

(** ** [Docsync.search_hdr] *)

(** [index_dict.get(key, (0, 0))], first component. *)
Definition get_line (index_dict : gmap nat (nat * str)) (key : nat) : nat :=
  match index_dict !! key with
  | Some (line_num, _) => line_num
  | None => 0
  end.

(** The loop over [lines[::-1]] with its [else] branch. *)
Fixpoint endif_loop (rlines : list str) (line_num : Z) : Z * Z :=
  match rlines with
  | [] => (0, 0)%Z
  | line :: rest =>
      if startswith line (lit "#endif") then (line_num - 1, line_num - 1)%Z
      else endif_loop rest (line_num - 1)%Z
  end.

Definition search_hdr (self : Docsync) (text : str) : res (Docsync * (Z * Z)) :=
  '(self, num) ← search self text;
  let index_dict := _index_str text in
  if negb (num =? 0) then
    (* a key that is None is in no index: the default is returned *)
    let line_start :=
      match start self with
      | Some st => get_line index_dict st
      | None => 0
      end in
    (* None + 1 *)
    en ← match end_ self with
         | Some en => Ok en
         | None => Raise TypeError
         end;
    let line_end := get_line index_dict (en + 1) in
    mret (self, (Z.of_nat line_start, Z.of_nat line_end))
  else
    let lines := split newline text in
    let line_num := (Z.of_nat (length lines) - 1)%Z in
    mret (self, endif_loop (rev lines) line_num).

(** ** [Docsync.docexport] *)

Inductive output : Type :=
  | OutStr (s : str)
  | OutLines (ls : list str).

Definition export_body (out : list str) (item : Func) : list str :=
  let docexport_str :=
    replace (substring item) (lit "docimport") (lit "docexport") ++ lit ";" in
  out ++ [docexport_str].

Definition docexport (self : Docsync) (output_type : str) : res output :=
  fs ← get_funcs self;
  let out := foldl export_body [] fs in
  let joined := join [newline; newline] out in
  if decide (output_type = lit "lines") then
    mret (OutLines (split newline joined))
  else
    mret (OutStr (join [newline; newline] out)).

(** ** What the pattern means

    [item_lang it w]: the item [it] can consume exactly the word [w]. *)
Definition item_lang (it : item) (w : str) : Prop :=
  match it with
  | Cls p One => ∃ a, w = [a] ∧ p a = true
  | Cls p Opt => w = [] ∨ ∃ a, w = [a] ∧ p a = true
  | Cls p Star | Cls p LazyStar => Forall (λ a, p a = true) w
  | Cls p Plus => w ≠ [] ∧ Forall (λ a, p a = true) w
  | Alt a b => w = a ∨ w = b
  | GroupOpen | GroupClose => w = []
  end.

(** The marks after an item that starts at offset [pos]. *)
Definition mark (it : item) (pos : nat) (m : marks) : marks :=
  match it with
  | GroupOpen => (pos, snd m)
  | GroupClose => (fst m, pos)
  | _ => m
  end.

(** [derives re pos w m m']: the word [w], placed at offset [pos], is a
    concatenation of words consumed by the items of [re] in order, and the
    group marks go from [m] to [m']. *)
Fixpoint derives (re : list item) (pos : nat) (w : str) (m m' : marks) : Prop :=
  match re with
  | [] => w = [] ∧ m' = m
  | it :: rest =>
      ∃ w1 w2, w = w1 ++ w2 ∧ item_lang it w1 ∧
               derives rest (pos + length w1) w2 (mark it pos m) m'
  end.

(** A tagged block starts at offset [st] of [text]. *)
Definition block_at (text : str) (st : nat) : Prop :=
  ∃ w s' m', drop st text = w ++ s' ∧ derives func_re st w (0, 0) m'.

(** The record [f] describes a tagged block of [text]: its span is a
    non-empty range of offsets of [text], its substring is the text of that
    range and matches the pattern, and its name is the text between the
    marks of the group. *)
Definition tagged_block (text : str) (f : Func) : Prop :=
  ∃ ns ne,
    fst (span f) < snd (span f) ≤ length text ∧
    substring f = slice text (fst (span f)) (snd (span f)) ∧
    derives func_re (fst (span f)) (substring f) (0, 0) (ns, ne) ∧
    name f = slice text ns ne.

(** [blocks_from text pos fs]: [fs] lists tagged blocks of [text] from
    offset [pos] on, from left to right: each one begins at the first
    offset, not before the end of the previous one, where a tagged block
    starts, and none starts after the last. *)
Inductive blocks_from (text : str) : nat → list Func → Prop :=
  | blocks_nil pos :
      (∀ p, pos ≤ p → ¬ block_at text p) →
      blocks_from text pos []
  | blocks_cons pos f fs :
      pos ≤ fst (span f) →
      (∀ p, pos ≤ p < fst (span f) → ¬ block_at text p) →
      tagged_block text f →
      blocks_from text (snd (span f)) fs →
      blocks_from text pos (f :: fs).

(** [self.start] after a search that found the matches [ms]: set by the
    first match when it was unset, unchanged otherwise. *)
Definition start_after (self : Docsync) (ms : list Match) : option nat :=
  match start self with
  | Some st => Some st
  | None => m_start <$> head ms
  end.

(** [self.end] after a search that found the matches [ms]. *)
Definition end_after (self : Docsync) (ms : list Match) : option nat :=
  match last ms with
  | Some m => Some (m_end m)
  | None => end_ self
  end.

(** A sequence of [search] calls on one session. *)
Fixpoint scans (self : Docsync) (texts : list str) : res Docsync :=
  match texts with
  | [] => mret self
  | text :: rest => '(self', _) ← search self text; scans self' rest
  end.

(** The offset of line [i] of [lines]: each line before it counts for its
    length and one line break. *)
Definition line_offset (lines : list str) (i : nat) : nat :=
  sum_list (map (λ l : str, length l + 1) (take i lines)).

(** [old] occurs in [s]. *)
Definition occurs (old s : str) : Prop := ∃ a b, s = a ++ old ++ b.

(** [old in s], by comparing [old] with the string at every offset. *)
Fixpoint contains (s old : str) : bool :=
  startswith s old ||
  match s with
  | [] => false
  | _ :: s' => contains s' old
  end.

(** The blocks exported for the records [fs], before they are joined. *)
Definition exported (fs : list Func) : list str :=
  map (λ item, replace (substring item) (lit "docimport") (lit "docexport")
               ++ lit ";") fs.

(** ** The parts of the pattern, and lines read on the text *)

(** The least number of characters an item consumes. *)
Definition min_len (it : item) : nat :=
  match it with
  | Cls _ One | Cls _ Plus => 1
  | Cls _ _ => 0
  | Alt a b => Nat.min (length a) (length b)
  | GroupOpen | GroupClose => 0
  end.

(** The items of [func_re] before the group [name], and the items after
    it. *)
Definition before_name : list item := take 22 func_re.
Definition after_name : list item := drop 25 func_re.

(** The items of [func_re] for the signature line. *)
Definition signature_re : list item := drop 18 func_re.

(** Offset [k] begins a line of [text]: it is 0 or comes directly after
    a line break. *)
Definition begins_line (text : str) (k : nat) : Prop :=
  k = 0 ∨ ∃ j, k = S j ∧ text !! j = Some newline.

(** The number of line breaks among the first [k] characters of [text]. *)
Definition breaks_before (text : str) (k : nat) : nat :=
  count_occ Ascii.ascii_dec (take k text) newline.

(** ** The matching rule, step by step

    The rule that a tagged block has to follow, written down step by
    step; [func_re] is compared with it.  A repetition takes as many
    characters as the rest of the rule allows, except the documentation
    body and the argument list, which take as few as possible. *)

(** 1. The opener of the first comment: [/] and one or more [*]. *)
Definition comment_opener : list item :=
  [chr "/"; Cls (Ascii.eqb "*") Plus].

(** 2. Whitespace, the tag in brackets with its identifier, whitespace. *)
Definition bracketed_tag : list item :=
  [Cls is_space Plus; chr "["; Alt (lit "docimport") (lit "docexport");
   Cls is_space Plus; Cls is_word Star; chr "]"; Cls is_space Plus].

(** 3. The token that closes the first comment and opens the second. *)
Definition comment_token : list item := map chr (lit "*//**").

(** 4. The documentation body: any characters, as few as possible. *)
Definition doc_body : list item := [Cls any_char LazyStar].

(** 5. The closer of the comment: one or more [*], [/] and a line break. *)
Definition comment_closer : list item :=
  [Cls (Ascii.eqb "*") Plus; chr "/"; chr newline].

(** 6. The signature: a word, optional whitespace, an optional [*],
    optional whitespace, the captured name, [(], any characters, as few as
    possible, [)], and an optional [;]. *)
Definition signature_line : list item :=
  [Cls is_word Plus; Cls is_space Star; Cls (Ascii.eqb "*") Opt;
   Cls is_space Star; GroupOpen; Cls is_word Plus; GroupClose;
   chr "("; Cls any_char LazyStar; chr ")"; Cls (Ascii.eqb ";") Opt].

Definition matching_rule : list item :=
  comment_opener ++ bracketed_tag ++ comment_token ++ doc_body ++
  comment_closer ++ signature_line.

(** [better it w' w]: for the item [it], the word [w'] is tried before the
    word [w]: the longer one for a greedy repetition or an optional
    character, the shorter one for a lazy repetition, the first literal
    for an alternation. *)
Definition better (it : item) (w' w : str) : Prop :=
  match it with
  | Cls _ One => False
  | Cls _ Opt | Cls _ Star | Cls _ Plus => length w < length w'
  | Cls _ LazyStar => length w' < length w
  | Alt a b => w' = a ∧ w = b ∧ a ≠ b
  | GroupOpen | GroupClose => False
  end.

(** [best re pos s w m m']: among the words that [re] derives at the
    beginning of [s], the word [w] is the one that a matcher trying the
    words of every item in the order of [better] finds first: no word of
    the first item that comes before the one chosen lets the rest of the
    pattern match, and the same holds for the rest. *)
Fixpoint best (re : list item) (pos : nat) (s w : str) (m m' : marks) : Prop :=
  match re with
  | [] => w = [] ∧ m' = m
  | it :: rest =>
      ∃ w1 w2, w = w1 ++ w2 ∧ item_lang it w1 ∧
        best rest (pos + length w1) (drop (length w1) s) w2 (mark it pos m) m' ∧
        ∀ w1' s1', item_lang it w1' → better it w1' w1 → s = w1' ++ s1' →
          ¬ ∃ w2' s2' m2, s1' = w2' ++ s2' ∧
              derives rest (pos + length w1') w2' (mark it pos m) m2
  end.

(** Some word that follows the matching rule begins at offset [st]. *)
Definition rule_block_at (text : str) (st : nat) : Prop :=
  ∃ w s' m', drop st text = w ++ s' ∧ derives matching_rule st w (0, 0) m'.

(** The record [f] is the match of the matching rule at its start offset:
    its span is a non-empty range of offsets of [text], its substring is
    the text of that range and is the word that the rule's preferences
    choose there, and its name is the text between the marks of the
    group. *)
Definition rule_block (text : str) (f : Func) : Prop :=
  ∃ ns ne,
    fst (span f) < snd (span f) ≤ length text ∧
    substring f = slice text (fst (span f)) (snd (span f)) ∧
    best matching_rule (fst (span f)) (drop (fst (span f)) text)
      (substring f) (0, 0) (ns, ne) ∧
    name f = slice text ns ne.

(** [rule_blocks_from text pos fs]: [fs] lists the matches of the rule in
    [text] from offset [pos] on: each one begins at the first offset, not
    before the end of the previous one, where a word of the rule begins,
    and none begins after the last. *)
Inductive rule_blocks_from (text : str) : nat → list Func → Prop :=
  | rule_blocks_nil pos :
      (∀ p, pos ≤ p → ¬ rule_block_at text p) →
      rule_blocks_from text pos []
  | rule_blocks_cons pos f fs :
      pos ≤ fst (span f) →
      (∀ p, pos ≤ p < fst (span f) → ¬ rule_block_at text p) →
      rule_block text f →
      rule_blocks_from text (snd (span f)) fs →
      rule_blocks_from text pos (f :: fs).

(** ** Example texts and sessions *)

(** A header with one tagged block from offset 10 to offset 50, which is
    lines 2 to 4. *)
Definition header_one_block : str :=
  lit "#if 1
//a
/** [docexport f] *//** doc
*/
int f(a);
#endif
".

(** A header without tagged block, closed by [#endif]. *)
Definition header_no_block : str :=
  lit "#ifndef H
#define H
#endif
".

(** A header whose first line starts with [#endif]. *)
Definition header_endif_first : str :=
  lit "#endif
int x;".

(** A source text whose only tagged block starts at offset 5, and one
    whose only tagged block starts at offset 0. *)
Definition text_block_at_5 : str :=
  lit "int;
/** [docimport f] *//** doc
*/
int f(a)".

Definition text_block_at_0 : str :=
  lit "/** [docimport g] *//** doc
*/
int g(a)".

(** The session after a scan of a source text with one block tagged
    [docimport]. *)
Definition session_after_scan : Docsync :=
  match search init text_block_at_0 with
  | Ok (self, _) => self
  | Raise _ => init
  end.

(** A session whose only record already reads [docexport]. *)
Definition session_exported : Docsync :=
  match search init header_one_block with
  | Ok (self, _) => self
  | Raise _ => init
  end.

(** The text [text_block_at_0] with every line ended by a carriage return
    and a line break. *)
Definition text_block_crlf : str :=
  lit "/** [docimport g] *//** doc" ++ [ascii_of_nat 13; newline] ++
  lit "*/" ++ [ascii_of_nat 13; newline] ++ lit "int g(a)".

(** A text with two tagged blocks, the second one line after the first. *)
Definition text_two_blocks : str :=
  lit "/** [docimport g] *//** doc
*/
int g(a)

/** [docimport h] *//** doc
*/
int h(a)".

(** ** Proof steps *)

(** A character that is none of the letters of a literal. *)
Ltac not_in_lit :=
  let H := fresh in
  intros H; vm_compute in H;
  repeat (apply elem_of_cons in H as [H|H]; [discriminate|]);
  by apply elem_of_nil in H.

(** * Properties of the matcher *)

Section Engine.

Implicit Types (p : ascii → bool) (k : cont) (s w : str) (m : marks).

Lemma orelse_Some {A} (x y : option A) r :
  orelse x y = Some r → x = Some r ∨ (x = None ∧ y = Some r).
Proof. destruct x; simpl; intros; [left | right]; auto. Qed.

Lemma orelse_is_Some {A} (x y : option A) :
  is_Some x ∨ is_Some y → is_Some (orelse x y).
Proof. destruct x; simpl; intros [H|H]; eauto. by destruct H. Qed.

Lemma startswith_app s a : startswith (a ++ s) a = true.
Proof. induction a as [|c a IH]; simpl; [done|]. by rewrite Ascii.eqb_refl. Qed.

Lemma startswith_inv s a :
  startswith s a = true → s = a ++ drop (length a) s.
Proof.
  revert s. induction a as [|c a IH]; intros s H; simpl in *; [done|].
  destruct s as [|d s]; [done|].
  apply andb_true_iff in H as [Hc H]. apply Ascii.eqb_eq in Hc as ->.
  simpl. f_equal. by apply IH.
Qed.

Lemma greedy_sound p k s : ∀ pos m r,
  greedy p k pos s m = Some r →
  ∃ w s', s = w ++ s' ∧ Forall (λ a, p a = true) w ∧
          k (pos + length w) s' m = Some r.
Proof.
  induction s as [|a s IH]; intros pos m r H; simpl in H.
  - exists [], []. rewrite Nat.add_0_r. auto.
  - destruct (p a) eqn:Hp.
    + apply orelse_Some in H as [H|[_ H]].
      * apply IH in H as (w & s' & -> & Hw & Hk).
        exists (a :: w), s'. simpl. rewrite <- Nat.add_succ_comm. auto.
      * exists [], (a :: s). rewrite Nat.add_0_r. auto.
    + exists [], (a :: s). rewrite Nat.add_0_r. auto.
Qed.

Lemma greedy_weaken p k s pos m :
  is_Some (k pos s m) → is_Some (greedy p k pos s m).
Proof.
  intros H. destruct s as [|a s]; simpl; [done|].
  destruct (p a); [|done]. apply orelse_is_Some. by right.
Qed.

Lemma greedy_complete p k w : ∀ pos s' m,
  Forall (λ a, p a = true) w →
  is_Some (k (pos + length w) s' m) →
  is_Some (greedy p k pos (w ++ s') m).
Proof.
  induction w as [|a w IH]; intros pos s' m Hw Hk; simpl in *.
  - rewrite Nat.add_0_r in Hk. by apply greedy_weaken.
  - inversion Hw as [|? ? Ha Hw']; subst. rewrite Ha.
    apply orelse_is_Some. left. apply IH; [done|].
    by rewrite Nat.add_succ_comm.
Qed.

Lemma lazy_sound p k s : ∀ pos m r,
  lazy p k pos s m = Some r →
  ∃ w s', s = w ++ s' ∧ Forall (λ a, p a = true) w ∧
          k (pos + length w) s' m = Some r.
Proof.
  induction s as [|a s IH]; intros pos m r H; simpl in H.
  - apply orelse_Some in H as [H|[_ H]]; [|done].
    exists [], []. rewrite Nat.add_0_r. auto.
  - apply orelse_Some in H as [H|[_ H]].
    + exists [], (a :: s). rewrite Nat.add_0_r. auto.
    + destruct (p a) eqn:Hp; [|done].
      apply IH in H as (w & s' & -> & Hw & Hk).
      exists (a :: w), s'. simpl. rewrite <- Nat.add_succ_comm. auto.
Qed.

Lemma lazy_complete p k w : ∀ pos s' m,
  Forall (λ a, p a = true) w →
  is_Some (k (pos + length w) s' m) →
  is_Some (lazy p k pos (w ++ s') m).
Proof.
  induction w as [|a w IH]; intros pos s' m Hw Hk; simpl in *.
  - rewrite Nat.add_0_r in Hk.
    destruct s'; simpl; apply orelse_is_Some; by left.
  - inversion Hw as [|? ? Ha Hw']; subst. rewrite Ha.
    apply orelse_is_Some. right. apply IH; [done|].
    by rewrite Nat.add_succ_comm.
Qed.

Lemma literal_sound a k pos s m r :
  literal a k pos s m = Some r →
  ∃ s', s = a ++ s' ∧ k (pos + length a) s' m = Some r.
Proof.
  unfold literal. destruct (startswith s a) eqn:H; [|done].
  intros Hk. exists (drop (length a) s). split; [|done].
  by apply startswith_inv.
Qed.

Lemma literal_complete a k pos s' m :
  literal a k pos (a ++ s') m = k (pos + length a) s' m.
Proof.
  unfold literal. rewrite startswith_app.
  by rewrite drop_app_length.
Qed.

(** Whatever an item lets through was consumed according to [item_lang]. *)
Lemma step_sound it k pos s m r :
  step it k pos s m = Some r →
  ∃ w s', s = w ++ s' ∧ item_lang it w ∧
          k (pos + length w) s' (mark it pos m) = Some r.
Proof.
  destruct it as [p q|a b| |]; simpl.
  - destruct q; simpl.
    + destruct s as [|c s]; [done|]. destruct (p c) eqn:Hp; [|done].
      intros H. exists [c], s. simpl. rewrite Nat.add_1_r. eauto.
    + destruct s as [|c s].
      { intros H. exists [], []. rewrite Nat.add_0_r. auto. }
      destruct (p c) eqn:Hp.
      * intros H. apply orelse_Some in H as [H|[_ H]].
        -- exists [c], s. simpl. rewrite Nat.add_1_r. eauto 10.
        -- exists [], (c :: s). rewrite Nat.add_0_r. auto.
      * intros H. exists [], (c :: s). rewrite Nat.add_0_r. auto.
    + apply greedy_sound.
    + destruct s as [|c s]; [done|]. destruct (p c) eqn:Hp; [|done].
      intros H. apply greedy_sound in H as (w & s' & -> & Hw & Hk).
      exists (c :: w), s'. simpl. rewrite <- Nat.add_succ_comm.
      repeat split; auto.
    + apply lazy_sound.
  - intros H. apply orelse_Some in H as [H|[_ H]];
      apply literal_sound in H as (s' & -> & Hk);
      [exists a, s' | exists b, s']; auto.
  - intros H. exists [], s. rewrite Nat.add_0_r. auto.
  - intros H. exists [], s. rewrite Nat.add_0_r. auto.
Qed.

(** An item succeeds whenever some word of its language lets the rest of
    the pattern succeed. *)
Lemma step_complete it k pos w s' m :
  item_lang it w →
  is_Some (k (pos + length w) s' (mark it pos m)) →
  is_Some (step it k pos (w ++ s') m).
Proof.
  destruct it as [p q|a b| |]; simpl.
  - destruct q; simpl.
    + intros (c & -> & Hp) Hk. simpl. rewrite Hp.
      by rewrite Nat.add_1_r in Hk.
    + intros [->|(c & -> & Hp)] Hk; simpl in *.
      * rewrite Nat.add_0_r in Hk. destruct s' as [|c s']; [done|].
        destruct (p c); [|done]. apply orelse_is_Some. by right.
      * rewrite Hp. rewrite Nat.add_1_r in Hk.
        apply orelse_is_Some. by left.
    + apply greedy_complete.
    + intros [Hne Hw] Hk. destruct w as [|c w]; [done|].
      inversion Hw as [|? ? Hc Hw']; subst. simpl. rewrite Hc.
      apply greedy_complete; [done|]. simpl in Hk.
      by rewrite Nat.add_succ_comm.
    + apply lazy_complete.
  - intros [->| ->] Hk; apply orelse_is_Some.
    + left. by rewrite literal_complete.
    + right. by rewrite literal_complete.
  - intros -> Hk. simpl in *. by rewrite Nat.add_0_r in Hk.
  - intros -> Hk. simpl in *. by rewrite Nat.add_0_r in Hk.
Qed.

(** Soundness: a successful run consumed a word derived by the pattern. *)
Lemma run_sound re : ∀ pos s m e m',
  run re pos s m = Some (e, m') →
  ∃ w s', s = w ++ s' ∧ e = pos + length w ∧ derives re pos w m m'.
Proof.
  induction re as [|it re IH]; intros pos s m e m' H; simpl in H.
  - injection H as <- <-. exists [], s. simpl. rewrite Nat.add_0_r. auto.
  - apply step_sound in H as (w1 & s1 & -> & Hit & Hk).
    apply IH in Hk as (w2 & s' & -> & -> & Hd).
    exists (w1 ++ w2), s'. rewrite <- app_assoc, length_app.
    repeat split; [lia|]. simpl. eauto 10.
Qed.

(** Completeness: if some prefix of the text is derived by the pattern,
    the run succeeds. *)
Lemma run_complete re : ∀ pos w s' m m',
  derives re pos w m m' → is_Some (run re pos (w ++ s') m).
Proof.
  induction re as [|it re IH]; intros pos w s' m m' H; simpl in *.
  - by eexists.
  - destruct H as (w1 & w2 & -> & Hit & Hd).
    rewrite <- app_assoc. apply step_complete; [done|]. by eapply IH.
Qed.

End Engine.

(** * The scan: what [search] records *)

Section Scan.

Implicit Types (text s w : str) (m : marks) (self : Docsync).

Lemma derives_func_re_nonempty pos w m m' :
  derives func_re pos w m m' → 0 < length w.
Proof.
  unfold func_re. simpl.
  intros (w1 & w2 & -> & (a & -> & _) & _). simpl. lia.
Qed.

Lemma match_at_Some pos s mt :
  match_at func_re pos s = Some mt →
  ∃ w s', s = w ++ s' ∧ 0 < length w ∧ m_start mt = pos ∧
          m_end mt = pos + length w ∧
          derives func_re pos w (0, 0) (m_name mt).
Proof.
  unfold match_at. destruct (run func_re pos s (0, 0)) as [[e m']|] eqn:H; [|done].
  intros [= <-]. apply run_sound in H as (w & s' & -> & -> & Hd).
  exists w, s'. simpl. repeat split; [|done].
  by eapply derives_func_re_nonempty.
Qed.

Lemma match_at_None text pos :
  match_at func_re pos (drop pos text) = None → ¬ block_at text pos.
Proof.
  unfold match_at. intros H (w & s' & m' & Hs & Hd).
  rewrite Hs in H.
  destruct (run_complete _ _ _ s' _ _ Hd) as [[e m''] Hr].
  by rewrite Hr in H.
Qed.

Lemma block_at_lt text p : block_at text p → p < length text.
Proof.
  intros (w & s' & m' & Hs & Hd). apply derives_func_re_nonempty in Hd.
  destruct (decide (p < length text)) as [|Hge]; [done|].
  rewrite drop_ge in Hs by lia. destruct w; simpl in *; [lia|done].
Qed.

(** Stepping over the rest of a match. *)
Lemma finditer_from_skip re skip : ∀ s pos,
  skip ≤ length s →
  finditer_from re pos skip s = finditer_from re (pos + skip) 0 (drop skip s).
Proof.
  induction skip as [|skip IH]; intros s pos Hlen.
  - by rewrite Nat.add_0_r.
  - destruct s as [|c s]; simpl in Hlen; [lia|].
    simpl. rewrite IH by lia. by rewrite Nat.add_succ_comm.
Qed.

Lemma finditer_from_0 re pos c s :
  finditer_from re pos 0 (c :: s) =
    match match_at re pos (c :: s) with
    | Some mt => mt :: finditer_from re (S pos) (m_end mt - pos - 1) s
    | None => finditer_from re (S pos) 0 s
    end.
Proof. done. Qed.

Lemma finditer_from_nil pos : finditer_from func_re pos 0 [] = [].
Proof.
  change (finditer_from func_re pos 0 []) with
    (match match_at func_re pos [] with Some mt => [mt] | None => [] end).
  destruct (match_at func_re pos []) as [mt|] eqn:H; [|done].
  apply match_at_Some in H as (w & s' & Hs & Hw & _).
  destruct w; simpl in *; [lia|done].
Qed.

(** After a match the search goes on at its end. *)
Lemma finditer_from_match pos s mt :
  match_at func_re pos s = Some mt →
  finditer_from func_re pos 0 s =
    mt :: finditer_from func_re (m_end mt) 0 (drop (m_end mt - pos) s).
Proof.
  intros H. destruct (match_at_Some _ _ _ H) as (w & s' & -> & Hw & _ & He & _).
  destruct w as [|c w]; simpl in Hw; [lia|].
  rewrite <- app_comm_cons in *. rewrite finditer_from_0, H. f_equal.
  simpl in He.
  rewrite finditer_from_skip by (rewrite length_app; lia).
  replace (m_end mt - pos) with (S (m_end mt - pos - 1)) by lia.
  rewrite skipn_cons. f_equal; [lia | f_equal; lia].
Qed.

Lemma finditer_from_no_match pos c s :
  match_at func_re pos (c :: s) = None →
  finditer_from func_re pos 0 (c :: s) = finditer_from func_re (S pos) 0 s.
Proof. intros H. by rewrite finditer_from_0, H. Qed.

Lemma blocks_from_extend text pos fs :
  ¬ block_at text pos → blocks_from text (S pos) fs → blocks_from text pos fs.
Proof.
  intros Hn H. inversion H as [? Hgap|? f fs' Hle Hgap Hb Hrest]; subst.
  - constructor. intros p Hp. destruct (decide (p = pos)) as [->|]; [done|].
    apply Hgap. lia.
  - constructor; [lia| |done|done].
    intros p Hp. destruct (decide (p = pos)) as [->|]; [done|].
    apply Hgap. lia.
Qed.

Lemma to_func_tagged_block text pos mt :
  pos ≤ length text →
  match_at func_re pos (drop pos text) = Some mt →
  tagged_block text (to_func text mt) ∧
  fst (span (to_func text mt)) = pos ∧
  snd (span (to_func text mt)) = m_end mt ∧
  pos < m_end mt ≤ length text.
Proof.
  intros Hpos H.
  destruct (match_at_Some _ _ _ H) as (w & s' & Hs & Hw & Hst & He & Hd).
  assert (length (drop pos text) = length w + length s') as Hlen
    by (by rewrite Hs, length_app).
  rewrite length_drop in Hlen.
  assert (slice text pos (m_end mt) = w) as Hsl.
  { unfold slice. rewrite Hs. apply take_app_length'. lia. }
  split; [|simpl; lia].
  destruct (m_name mt) as [ns ne] eqn:Hm.
  exists ns, ne. unfold to_func, group0, group_name. simpl.
  rewrite Hst, Hsl, Hm. simpl. repeat split; [lia|lia|done].
Qed.

(** The matches of [finditer] are the tagged blocks, in order. *)
Lemma finditer_blocks text : ∀ n pos,
  length text - pos ≤ n → pos ≤ length text →
  blocks_from text pos
    (map (to_func text) (finditer_from func_re pos 0 (drop pos text))).
Proof.
  induction n as [|n IH]; intros pos Hn Hpos.
  - assert (pos = length text) as -> by lia.
    rewrite drop_all, finditer_from_nil. simpl.
    constructor. intros p Hp Hb. apply block_at_lt in Hb. lia.
  - destruct (match_at func_re pos (drop pos text)) as [mt|] eqn:H.
    + rewrite (finditer_from_match _ _ _ H).
      destruct (to_func_tagged_block _ _ _ Hpos H) as (Hb & Hst & Hen & Hlt).
      rewrite drop_drop. replace (pos + (m_end mt - pos)) with (m_end mt) by lia.
      simpl. constructor; [lia| intros; lia |done|].
      rewrite Hen. apply IH; lia.
    + pose proof (match_at_None _ _ H) as Hnb.
      destruct (drop pos text) as [|c s] eqn:Hs.
      * rewrite finditer_from_nil. constructor. intros p Hp Hb.
        apply block_at_lt in Hb.
        assert (length (drop pos text) = 0) as Hl by (by rewrite Hs).
        rewrite length_drop in Hl. lia.
      * rewrite (finditer_from_no_match _ _ _ H).
        assert (s = drop (S pos) text) as ->.
        { replace (S pos) with (pos + 1) by lia.
          by rewrite <- drop_drop, Hs. }
        assert (length (drop pos text) = S (length (drop (S pos) text))) as Hl
          by (by rewrite Hs).
        rewrite !length_drop in Hl.
        apply blocks_from_extend; [done|]. apply IH; lia.
Qed.

(** The blocks of a left-to-right enumeration do not overlap. *)
Lemma blocks_from_lookup text pos fs :
  blocks_from text pos fs → ∀ i f, fs !! i = Some f →
  pos ≤ fst (span f) ∧ tagged_block text f ∧
  blocks_from text (snd (span f)) (drop (S i) fs).
Proof.
  induction 1 as [|pos f fs Hle Hgap Hb Hrest IH]; intros i g Hi; [done|].
  destruct i as [|i]; simpl in Hi.
  - injection Hi as <-. auto.
  - destruct (IH _ _ Hi) as (Hle' & Hb' & Hrest').
    destruct Hb as (? & ? & ? & _). split; [lia|]. auto.
Qed.

Lemma blocks_from_ordered text pos fs :
  blocks_from text pos fs → ∀ i j fi fj,
  i < j → fs !! i = Some fi → fs !! j = Some fj →
  snd (span fi) ≤ fst (span fj).
Proof.
  intros H i j fi fj Hij Hi Hj.
  destruct (blocks_from_lookup _ _ _ H _ _ Hi) as (_ & _ & Hrest).
  assert (drop (S i) fs !! (j - S i) = Some fj) as Hj'.
  { rewrite lookup_drop. by replace (S i + (j - S i)) with j by lia. }
  by destruct (blocks_from_lookup _ _ _ Hrest _ _ Hj') as (? & _).
Qed.

End Scan.

(** * The session after [search] *)

Section Search.

Implicit Types (text : str) (self : Docsync) (ms : list Match).

Lemma search_loop_spec text ms : ∀ self lst fs0,
  funcs self = Some fs0 →
  search_loop text ms self lst =
    Ok (mkDocsync (start_after self ms) (end_ self)
                  (Some (fs0 ++ map (to_func text) ms)),
        match last ms with Some m => Some m | None => lst end).
Proof.
  induction ms as [|m ms IH]; intros self lst fs0 Hfs.
  - destruct self as [st en fs]; simpl in *; subst.
    unfold start_after; simpl. rewrite app_nil_r. by destruct st.
  - cbn [search_loop]. unfold search_body, get_funcs.
    assert (funcs (match start self with
                   | Some _ => self
                   | None => set_start (Some (m_start m)) self
                   end) = Some fs0) as -> by (by destruct (start self)).
    cbn [mbind res_bind mret res_ret].
    erewrite IH by reflexivity. f_equal. f_equal.
    + unfold start_after. cbn [map head fmap option_fmap option_map].
      rewrite <- app_assoc. by destruct self as [[st|] en fs].
    + rewrite last_cons. by destruct (last ms).
Qed.

(** [search] never fails, and leaves the session in this state. *)
Lemma search_spec self text :
  let ms := finditer func_re text in
  search self text =
    Ok (mkDocsync (start_after self ms) (end_after self ms)
                  (Some (map (to_func text) ms)),
        length ms).
Proof.
  intros ms. unfold search. fold ms.
  rewrite (search_loop_spec text ms _ None []) by done.
  cbn [mbind res_bind mret res_ret]. unfold end_after.
  destruct (last ms) as [m|]; cbn; by rewrite length_map.
Qed.

(** When a match was found both [start] and [end] are set. *)
Lemma start_after_is_Some self ms : ms ≠ [] → is_Some (start_after self ms).
Proof.
  unfold start_after. destruct (start self); [by eauto|].
  destruct ms; [done|]. by eauto.
Qed.

Lemma end_after_is_Some self ms : ms ≠ [] → is_Some (end_after self ms).
Proof.
  unfold end_after. intros H. apply last_is_Some in H as [m ->]. by eauto.
Qed.

End Search.

(** * Texts with and without tagged blocks *)

Section Blocks.

Implicit Types (text : str) (self : Docsync).

Lemma tagged_block_block_at text f :
  tagged_block text f → block_at text (fst (span f)).
Proof.
  intros (ns & ne & [Hlt Hle] & Hsub & Hd & _).
  exists (substring f), (drop (snd (span f)) text), (ns, ne).
  split; [|done]. rewrite Hsub. unfold slice.
  rewrite <- (take_drop (snd (span f) - fst (span f)) (drop (fst (span f)) text))
    at 1.
  f_equal. rewrite drop_drop. f_equal. lia.
Qed.

Lemma finditer_blocks_0 text :
  blocks_from text 0 (map (to_func text) (finditer func_re text)).
Proof.
  pose proof (finditer_blocks text (length text) 0) as Hb.
  rewrite drop_0 in Hb. apply Hb; lia.
Qed.

(** [finditer] finds nothing exactly when no tagged block starts
    anywhere in the text. *)
Lemma finditer_nil_iff text :
  finditer func_re text = [] ↔ ∀ p, ¬ block_at text p.
Proof.
  pose proof (finditer_blocks_0 text) as Hb. split.
  - intros H. rewrite H in Hb. inversion Hb as [? Hgap|]; subst.
    intros p. apply Hgap. lia.
  - intros Hno. destruct (finditer func_re text) as [|mt ms]; [done|].
    inversion Hb as [|? f fs _ _ Hf _]; subst.
    by apply tagged_block_block_at, Hno in Hf.
Qed.

Lemma search_no_match self text :
  finditer func_re text = [] →
  search self text = Ok (set_funcs (Some []) self, 0).
Proof.
  intros H. rewrite search_spec, H. unfold start_after, end_after. simpl.
  by destruct self as [[st|] en fs].
Qed.

(** The loop over the reversed lines: the last line that starts with
    the token decides. *)
Lemma endif_loop_found (lines : list str) (L : nat) (line : str) :
  lines !! L = Some line →
  startswith line (lit "#endif") = true →
  (∀ j l, L < j → lines !! j = Some l → startswith l (lit "#endif") = false) →
  endif_loop (rev lines) (Z.of_nat (length lines) - 1) =
    (Z.of_nat L - 1, Z.of_nat L - 1)%Z.
Proof.
  induction lines as [|x lines IH] using rev_ind; intros HL Hs Hlast; [done|].
  rewrite rev_unit, length_app. cbn [endif_loop length].
  replace (Z.of_nat (length lines + 1) - 1)%Z with (Z.of_nat (length lines))
    by lia.
  destruct (decide (L = length lines)) as [->|Hne].
  - rewrite lookup_app_r, Nat.sub_diag in HL by lia.
    injection HL as ->. by rewrite Hs.
  - assert (L < length lines) as HLlt.
    { apply lookup_lt_Some in HL. rewrite length_app in HL. simpl in HL. lia. }
    rewrite (Hlast (length lines) x); [|lia|].
    + apply IH; [by rewrite lookup_app_l in HL|done|].
      intros j l Hj Hl. apply (Hlast j l Hj).
      rewrite lookup_app_l; [done|]. by apply lookup_lt_Some in Hl.
    + rewrite lookup_app_r, Nat.sub_diag by lia. done.
Qed.

Lemma endif_loop_not_found (rlines : list str) (n : Z) :
  Forall (λ l, startswith l (lit "#endif") = false) rlines →
  endif_loop rlines n = (0, 0)%Z.
Proof.
  intros H. revert n. induction H as [|l rlines Hl _ IH]; intros n; [done|].
  cbn [endif_loop]. by rewrite Hl.
Qed.

Lemma search_hdr_no_match self text :
  finditer func_re text = [] →
  search_hdr self text =
    Ok (set_funcs (Some []) self,
        endif_loop (rev (split newline text))
                   (Z.of_nat (length (split newline text)) - 1)).
Proof.
  intros H. unfold search_hdr. by rewrite (search_no_match _ _ H).
Qed.

End Blocks.

(** C1. When the header text has at least one tagged block, [search_hdr]
    returns the pair of the line number that the line index gives for the
    recorded start offset and the line number it gives for the recorded end
    offset plus one; each of the two is 0 when its offset is not a key of
    the index.  The recorded end offset is where the last record ends, and
    the recorded start offset is where the first record starts when no
    start was recorded before. *)
Theorem search_hdr_with_blocks (self : Docsync) (text : str) :
  finditer func_re text ≠ [] →
  ∃ self' n st en fs,
    search self text = Ok (self', n) ∧ n ≠ 0 ∧
    start self' = Some st ∧ end_ self' = Some en ∧ funcs self' = Some fs ∧
    (∃ f, last fs = Some f ∧ snd (span f) = en) ∧
    (start self = None → ∃ f, head fs = Some f ∧ fst (span f) = st) ∧
    search_hdr self text =
      Ok (self',
          (Z.of_nat match _index_str text !! st with
                    | Some (line_num, _) => line_num
                    | None => 0
                    end,
           Z.of_nat match _index_str text !! (en + 1) with
                    | Some (line_num, _) => line_num
                    | None => 0
                    end)).
Proof.
  intros Hne. set (ms := finditer func_re text) in *.
  destruct (start_after_is_Some self ms Hne) as [st Hst].
  destruct (end_after_is_Some self ms Hne) as [en Hen].
  exists (mkDocsync (Some st) (Some en) (Some (map (to_func text) ms))),
    (length ms), st, en, (map (to_func text) ms).
  assert (search self text =
          Ok (mkDocsync (Some st) (Some en) (Some (map (to_func text) ms)),
              length ms)) as Hs
    by (by rewrite search_spec; fold ms; rewrite Hst, Hen).
  assert (length ms ≠ 0) as Hlen by (by destruct ms).
  repeat split; try done.
  - unfold end_after in Hen. destruct (last ms) as [m|] eqn:Hl.
    + exists (to_func text m). injection Hen as <-. split; [|done].
      apply last_Some in Hl as [ms' ->].
      rewrite map_app. apply last_snoc.
    + by apply last_None in Hl.
  - intros Hnone. unfold start_after in Hst. rewrite Hnone in Hst.
    destruct ms as [|m ms']; [done|]. injection Hst as <-.
    by exists (to_func text m).
  - unfold search_hdr. rewrite Hs. cbn [mbind res_bind mret res_ret].
    destruct (length ms =? 0) eqn:Hz; [by apply Nat.eqb_eq in Hz|].
    reflexivity.
Qed.

Lemma search_hdr_with_blocks_witness :
  ∃ self' n st en fs,
    search init header_one_block = Ok (self', n) ∧ n ≠ 0 ∧
    start self' = Some st ∧ end_ self' = Some en ∧ funcs self' = Some fs ∧
    (∃ f, last fs = Some f ∧ snd (span f) = en) ∧
    (start init = None → ∃ f, head fs = Some f ∧ fst (span f) = st) ∧
    search_hdr init header_one_block =
      Ok (self',
          (Z.of_nat match _index_str header_one_block !! st with
                    | Some (line_num, _) => line_num
                    | None => 0
                    end,
           Z.of_nat match _index_str header_one_block !! (en + 1) with
                    | Some (line_num, _) => line_num
                    | None => 0
                    end)).
Proof.
  apply (search_hdr_with_blocks init header_one_block).
  vm_compute. discriminate.
Defined.

Example search_hdr_one_block :
  snd <$> (match search_hdr init header_one_block with
           | Ok r => Some r
           | Raise _ => None
           end) = Some (2, 5)%Z.
Proof. vm_compute. reflexivity. Qed.

(** C3. When no tagged block starts anywhere in the header text, [search]
    returns 0 and [search_hdr] returns [(L - 1, L - 1)] for the index [L] of
    the last line that starts with [#endif], and [(0, 0)] when no line
    does. *)
Theorem search_hdr_without_blocks (self : Docsync) (text : str) :
  (∀ p, ¬ block_at text p) →
  ∃ self' r,
    search self text = Ok (self', 0) ∧
    search_hdr self text = Ok (self', r) ∧
    (∀ L line,
       split newline text !! L = Some line →
       startswith line (lit "#endif") = true →
       (∀ j l, L < j → split newline text !! j = Some l →
               startswith l (lit "#endif") = false) →
       r = (Z.of_nat L - 1, Z.of_nat L - 1)%Z) ∧
    ((∀ l, l ∈ split newline text → startswith l (lit "#endif") = false) →
     r = (0, 0)%Z).
Proof.
  intros Hno. apply finditer_nil_iff in Hno.
  eexists _, _. split; [by apply search_no_match|].
  split; [by apply search_hdr_no_match|]. split.
  - intros L line HL Hs Hlast. by eapply endif_loop_found.
  - intros Hnone. apply endif_loop_not_found.
    apply Forall_forall. intros l Hl. apply Hnone.
    apply list_elem_of_In. apply list_elem_of_In in Hl. by apply in_rev.
Qed.

(** C10. When no tagged block starts anywhere in the header text and the
    only line that starts with [#endif] is its first line, [search_hdr]
    returns [(-1, -1)]. *)
Theorem search_hdr_endif_first_line (self : Docsync) (text : str) (line : str) :
  (∀ p, ¬ block_at text p) →
  split newline text !! 0 = Some line →
  startswith line (lit "#endif") = true →
  (∀ j l, 0 < j → split newline text !! j = Some l →
          startswith l (lit "#endif") = false) →
  ∃ self', search_hdr self text = Ok (self', (-1, -1)%Z) ∧
           (-1, -1)%Z ≠ (0, 0)%Z.
Proof.
  intros Hno H0 Hs Hlast. apply finditer_nil_iff in Hno.
  eexists. split; [|done]. rewrite (search_hdr_no_match _ _ Hno).
  by rewrite (endif_loop_found _ 0 line H0 Hs Hlast).
Qed.

Lemma search_hdr_without_blocks_witness :
  (∀ p, ¬ block_at header_no_block p) ∧
  ∃ self' r,
    search init header_no_block = Ok (self', 0) ∧
    search_hdr init header_no_block = Ok (self', r) ∧
    (∀ L line,
       split newline header_no_block !! L = Some line →
       startswith line (lit "#endif") = true →
       (∀ j l, L < j → split newline header_no_block !! j = Some l →
               startswith l (lit "#endif") = false) →
       r = (Z.of_nat L - 1, Z.of_nat L - 1)%Z) ∧
    ((∀ l, l ∈ split newline header_no_block →
           startswith l (lit "#endif") = false) →
     r = (0, 0)%Z).
Proof.
  assert (∀ p, ¬ block_at header_no_block p) as Hno.
  { apply finditer_nil_iff. vm_compute. reflexivity. }
  split; [exact Hno|].
  apply (search_hdr_without_blocks init header_no_block Hno).
Defined.

Example search_hdr_no_block :
  search_hdr init header_no_block = Ok (set_funcs (Some []) init, (1, 1)%Z).
Proof. vm_compute. reflexivity. Qed.

Lemma search_hdr_endif_first_line_witness :
  ∃ self', search_hdr init header_endif_first = Ok (self', (-1, -1)%Z) ∧
           (-1, -1)%Z ≠ (0, 0)%Z.
Proof.
  apply (search_hdr_endif_first_line init header_endif_first (lit "#endif")).
  - apply finditer_nil_iff. vm_compute. reflexivity.
  - vm_compute. reflexivity.
  - vm_compute. reflexivity.
  - intros [|[|j]] l Hj Hl; [lia| |].
    + vm_compute in Hl. injection Hl as <-. vm_compute. reflexivity.
    + vm_compute in Hl. discriminate.
Defined.

(** * The start offset across scans *)

(** C6, as stated, fails: after a scan that found a block at offset 5, a
    second scan of a text whose block is at offset 0 leaves [start] at 5
    while the first record starts at 0. *)
Lemma start_not_refreshed :
  ¬ (∀ texts self' f fs,
       scans init texts = Ok self' →
       funcs self' = Some (f :: fs) →
       start self' = Some (fst (span f))).
Proof.
  intros H.
  specialize (H [text_block_at_5; text_block_at_0]).
  destruct (scans init [text_block_at_5; text_block_at_0]) as [self'|e] eqn:Hs;
    vm_compute in Hs; [|discriminate].
  injection Hs as <-.
  specialize (H _ _ _ eq_refl eq_refl). vm_compute in H. discriminate.
Qed.

(** C6, amended.  A scan sets [start] only when it was unset: after a
    scan of a session whose [start] was unset, [start] is the start offset
    of the first record whenever there is a record; a [start] that was set
    before the scan is left as it was. *)
Theorem start_set_by_first_match (self : Docsync) (text : str) :
  ∃ self' n,
    search self text = Ok (self', n) ∧
    match start self with
    | None => ∀ f fs, funcs self' = Some (f :: fs) →
                      start self' = Some (fst (span f))
    | Some st => start self' = Some st
    end.
Proof.
  eexists _, _. split; [apply search_spec|].
  unfold start_after. cbn [start funcs].
  destruct (start self) as [st|]; [done|].
  intros f fs Hfs. destruct (finditer func_re text) as [|m ms]; [done|].
  by injection Hfs as <- _.
Qed.

(** Over a sequence of scans of a new session: [start] stays where the
    first scan that found a block put it. *)
Lemma scans_start_kept (texts : list str) : ∀ self st,
  start self = Some st →
  ∃ self', scans self texts = Ok self' ∧ start self' = Some st.
Proof.
  induction texts as [|text texts IH]; intros self st Hst; [by eexists|].
  cbn [scans]. rewrite search_spec. cbn [mbind res_bind].
  apply IH. unfold start_after. by rewrite Hst.
Qed.

(** * Splitting and joining *)

Section Strings.

Implicit Types (s l : str) (ls : list str) (sep c : ascii).

Lemma split_not_nil sep s : split sep s ≠ [].
Proof.
  destruct s as [|c s]; simpl; [done|].
  destruct (Ascii.eqb c sep); [done|]. by destruct (split sep s).
Qed.

Lemma split_cons sep c s :
  split sep (c :: s) =
    if Ascii.eqb c sep then [] :: split sep s
    else match split sep s with
         | l :: ls => (c :: l) :: ls
         | [] => [[c]]
         end.
Proof. done. Qed.

Lemma join_cons2 (sp : str) l l' ls :
  join sp (l :: l' :: ls) = l ++ sp ++ join sp (l' :: ls).
Proof. done. Qed.

(** Joining the pieces with the separator gives the string back. *)
Lemma join_split sep s : join [sep] (split sep s) = s.
Proof.
  induction s as [|c s IH]; [done|]. rewrite split_cons.
  destruct (Ascii.eqb c sep) eqn:Hc.
  - apply Ascii.eqb_eq in Hc as ->. cbn [join].
    pose proof (split_not_nil sep s).
    destruct (split sep s) as [|l ls] eqn:Hs; [done|].
    simpl. by rewrite <- IH.
  - destruct (split sep s) as [|l ls] eqn:Hs; [by destruct (split_not_nil sep s)|].
    rewrite <- IH. by destruct ls.
Qed.

(** One more character at the end: a new empty piece after the
    separator, a longer last piece otherwise. *)
Lemma split_snoc sep s c :
  ∃ ls l, split sep s = ls ++ [l] ∧
          split sep (s ++ [c]) =
            if Ascii.eqb c sep then ls ++ [l; []] else ls ++ [l ++ [c]].
Proof.
  induction s as [|a s (ls & l & Hs & Hsc)].
  - exists [], []. split; [done|]. simpl. by destruct (Ascii.eqb c sep).
  - rewrite <- app_comm_cons, !split_cons, Hs, Hsc.
    destruct (Ascii.eqb a sep).
    + exists ([] :: ls), l. split; [done|]. by destruct (Ascii.eqb c sep).
    + destruct ls as [|l0 ls0].
      * exists [], (a :: l). split; [done|]. by destruct (Ascii.eqb c sep).
      * exists ((a :: l0) :: ls0), l. split; [done|].
        by destruct (Ascii.eqb c sep).
Qed.

(** The last piece is empty exactly for the empty string and for a
    string that ends with the separator. *)
Lemma split_last_nil sep s :
  last (split sep s) = Some [] ↔ s = [] ∨ last s = Some sep.
Proof.
  destruct s as [|c s _] using rev_ind; [by split; auto|].
  destruct (split_snoc sep s c) as (ls & l & _ & ->).
  rewrite last_snoc. destruct (Ascii.eqb c sep) eqn:Hc.
  - apply Ascii.eqb_eq in Hc as ->.
    replace (ls ++ [l; []]) with ((ls ++ [l]) ++ [[]]) by by rewrite <- app_assoc.
    rewrite last_snoc. split; auto.
  - apply Ascii.eqb_neq in Hc. rewrite last_snoc. split.
    + intros [= H]. by destruct l.
    + intros [H|[= H]]; [by destruct s|done].
Qed.

Lemma line_offset_0 ls : line_offset ls 0 = 0.
Proof. done. Qed.

Lemma line_offset_cons l ls i :
  line_offset (l :: ls) (S i) = length l + 1 + line_offset ls i.
Proof. done. Qed.

Lemma line_offset_S ls : ∀ i l,
  ls !! i = Some l → line_offset ls (S i) = line_offset ls i + length l + 1.
Proof.
  induction ls as [|l0 ls IH]; intros i l Hi; [done|].
  destruct i as [|i]; simpl in Hi.
  - injection Hi as ->. rewrite line_offset_cons, !line_offset_0. lia.
  - rewrite !line_offset_cons, (IH _ _ Hi). lia.
Qed.

Lemma line_offset_mono ls i j :
  i ≤ j → line_offset ls i ≤ line_offset ls j.
Proof.
  revert i j. induction ls as [|l ls IH]; intros i j Hij.
  - unfold line_offset. by rewrite !take_nil.
  - destruct i as [|i]; [rewrite line_offset_0; lia|].
    destruct j as [|j]; [lia|]. rewrite !line_offset_cons.
    specialize (IH i j). lia.
Qed.

(** The text has one character less than the lines with their line
    breaks. *)
Lemma length_join_lines sep ls :
  ls ≠ [] → length (join [sep] ls) + 1 = line_offset ls (length ls).
Proof.
  induction ls as [|l ls IH]; intros Hne; [done|].
  cbn [length]. rewrite line_offset_cons. destruct ls as [|l' ls].
  - simpl. rewrite line_offset_0. lia.
  - rewrite join_cons2, !length_app. specialize (IH ltac:(done)).
    cbn [length] in *. lia.
Qed.

(** A line is found in the joined text at its offset. *)
Lemma slice_join_line sep ls : ∀ i l,
  ls !! i = Some l →
  slice (join [sep] ls) (line_offset ls i) (line_offset ls i + length l) = l.
Proof.
  unfold slice. induction ls as [|l0 ls IH]; intros i l Hi; [done|].
  replace (line_offset (l0 :: ls) i + length l - line_offset (l0 :: ls) i)
    with (length l) by lia.
  destruct i as [|i]; simpl in Hi.
  - injection Hi as ->. rewrite line_offset_0, drop_0.
    destruct ls; [by rewrite take_ge|]. rewrite join_cons2.
    apply take_app_length.
  - rewrite line_offset_cons. destruct ls as [|l1 ls]; [done|].
    rewrite join_cons2, <- drop_drop.
    replace (length l0 + 1) with (length (l0 ++ [sep]))
      by (rewrite length_app; simpl; lia).
    replace (l0 ++ [sep] ++ join [sep] (l1 :: ls))
      with ((l0 ++ [sep]) ++ join [sep] (l1 :: ls)) by by rewrite <- app_assoc.
    rewrite drop_app_length. specialize (IH i l Hi).
    by replace (line_offset (l1 :: ls) i + length l - line_offset (l1 :: ls) i)
      with (length l) in IH by lia.
Qed.

End Strings.

(** * The line index *)

Section Index.

Implicit Types (text : str) (ls : list str) (d : gmap nat (nat * str)).

(** The loop of [_index_str], started with the index [d], the offset
    [c] and the line number [n]. *)
Lemma index_fold_spec ls : ∀ d c n,
  let r := foldl index_body (d, c) (enumerate_from n ls) in
  (∀ k, k < c → fst r !! k = d !! k) ∧
  (∀ i l, ls !! i = Some l →
          fst r !! (c + line_offset ls i) = Some (n + i, l)) ∧
  (∀ k v, fst r !! k = Some v →
          d !! k = Some v ∨
          ∃ i l, ls !! i = Some l ∧ k = c + line_offset ls i ∧ v = (n + i, l)).
Proof.
  induction ls as [|l0 ls IH]; intros d c n; cbn zeta.
  - simpl. repeat split; [done|by auto].
  - cbn [enumerate_from foldl index_body].
    destruct (IH (<[c:=(n, l0)]> d) (c + (length l0 + 1)) (S n))
      as (Hlt & Hin & Hout).
    repeat split.
    + intros k Hk. rewrite Hlt by lia. apply lookup_insert_ne. lia.
    + intros [|i] l Hi; simpl in Hi.
      * injection Hi as ->. rewrite line_offset_0, !Nat.add_0_r.
        rewrite Hlt by lia. apply lookup_insert_eq.
      * rewrite line_offset_cons.
        replace (c + (length l0 + 1 + line_offset ls i))
          with (c + (length l0 + 1) + line_offset ls i) by lia.
        rewrite (Hin i l Hi). f_equal. f_equal. lia.
    + intros k v Hk. destruct (Hout k v Hk) as [Hd|(i & l & Hi & -> & ->)].
      * destruct (decide (c = k)) as [<-|Hne].
        -- rewrite lookup_insert_eq in Hd. injection Hd as <-.
           right. exists 0, l0. rewrite line_offset_0.
           repeat split; f_equal; lia.
        -- rewrite lookup_insert_ne in Hd by done. by left.
      * right. exists (S i), l. rewrite line_offset_cons.
        repeat split; [done|lia|f_equal; lia].
Qed.

Lemma index_str_lookup text i l :
  split newline text !! i = Some l →
  _index_str text !! line_offset (split newline text) i = Some (i, l).
Proof.
  intros Hi. unfold _index_str.
  destruct (index_fold_spec (split newline text) ∅ 0 0) as (_ & Hin & _).
  by apply (Hin i l).
Qed.

Lemma index_str_keys text k v :
  _index_str text !! k = Some v →
  ∃ i l, split newline text !! i = Some l ∧
         k = line_offset (split newline text) i ∧ v = (i, l).
Proof.
  intros Hk. unfold _index_str in Hk.
  destruct (index_fold_spec (split newline text) ∅ 0 0) as (_ & _ & Hout).
  destruct (Hout k v Hk) as [Hd|(i & l & Hi & -> & ->)]; [done|].
  by exists i, l.
Qed.

(** The offset of the last line is the length of the text minus the
    length of that line. *)
Lemma last_line_offset text i l :
  split newline text !! i = Some l →
  S i = length (split newline text) →
  line_offset (split newline text) i + length l = length text.
Proof.
  intros Hi Hlen.
  pose proof (length_join_lines newline (split newline text)
                (split_not_nil _ _)) as Hj.
  rewrite join_split, <- Hlen, (line_offset_S _ _ _ Hi) in Hj. lia.
Qed.

(** The offset [len(text)] is a key exactly when the last line is
    empty. *)
Lemma index_str_end text :
  is_Some (_index_str text !! length text) ↔
  text = [] ∨ last text = Some newline.
Proof.
  rewrite <- split_last_nil. split.
  - intros [v Hv].
    apply index_str_keys in Hv as (i & l & Hi & Hk & _).
    pose proof (lookup_lt_Some _ _ _ Hi) as Hlt.
    destruct (decide (S i = length (split newline text))) as [Hlast|Hn].
    + pose proof (last_line_offset _ _ _ Hi Hlast) as Ho.
      assert (l = []) as -> by (destruct l; simpl in Ho; [done|lia]).
      rewrite last_lookup, <- Hlast. done.
    + destruct (lookup_lt_is_Some_2 (split newline text)
                  (pred (length (split newline text)))) as [l' Hl']; [lia|].
      pose proof (last_line_offset _ _ _ Hl' ltac:(lia)) as Ho.
      pose proof (line_offset_S _ _ _ Hi) as HS.
      pose proof (line_offset_mono (split newline text) (S i)
                    (pred (length (split newline text))) ltac:(lia)).
      lia.
  - intros Hl. rewrite last_lookup in Hl.
    pose proof (split_not_nil newline text) as Hne.
    assert (S (pred (length (split newline text))) =
            length (split newline text)) as Hlen
      by (destruct (split newline text); simpl; [done|lia]).
    pose proof (last_line_offset _ _ _ Hl Hlen) as Ho. simpl in Ho.
    rewrite Nat.add_0_r in Ho. rewrite <- Ho.
    rewrite (index_str_lookup _ _ _ Hl). by eexists.
Qed.

End Index.

(** C5, as stated, fails: the index of a text that does not end with a
    line break has no entry at the offset one past its last character. *)
Lemma index_no_entry_past_end :
  ¬ (∀ text, is_Some (_index_str text !! length text)).
Proof.
  intros H. specialize (H (lit "abc")). vm_compute in H.
  by destruct H.
Qed.

(** C5, amended.  The index has exactly one entry per line: the key of
    line [i] is its offset, where the line is found in the text, and its
    value is the line number and the line; the offsets start at 0 and each
    is the previous one plus the length of the previous line plus one.  The
    offset one past the last character is a key exactly when the text is
    empty or ends with a line break. *)
Theorem index_str_entries (text : str) :
  let lines := split newline text in
  let index_dict := _index_str text in
  (∀ i l, lines !! i = Some l →
          index_dict !! line_offset lines i = Some (i, l)) ∧
  (∀ k v, index_dict !! k = Some v →
          ∃ i l, lines !! i = Some l ∧ k = line_offset lines i ∧ v = (i, l)) ∧
  line_offset lines 0 = 0 ∧
  (∀ i l, lines !! i = Some l →
          line_offset lines (S i) = line_offset lines i + length l + 1) ∧
  (∀ i l, lines !! i = Some l →
          slice text (line_offset lines i) (line_offset lines i + length l) = l) ∧
  (is_Some (index_dict !! length text) ↔
   text = [] ∨ last text = Some newline).
Proof.
  cbn zeta. repeat split.
  - apply index_str_lookup.
  - apply index_str_keys.
  - apply line_offset_S.
  - intros i l Hi.
    pose proof (slice_join_line newline _ _ _ Hi) as H.
    by rewrite join_split in H.
  - by apply index_str_end.
  - by apply index_str_end.
Qed.

(** * Export *)

Section Exporter.

Implicit Types (s old new : str) (self : Docsync) (fs : list Func).

(** Stepping over the rest of an occurrence. *)
Lemma replace_from_skip old new s : ∀ skip,
  replace_from old new skip s = replace_from old new 0 (drop skip s).
Proof.
  induction s as [|c s IH]; intros skip; [by destruct skip|].
  destruct skip as [|skip]; [done|]. apply IH.
Qed.

(** The two cases of [replace] on a non-empty string. *)
Lemma replace_startswith s old new :
  old ≠ [] → startswith s old = true →
  replace s old new = new ++ replace (drop (length old) s) old new.
Proof.
  intros Hold Hs. unfold replace. destruct s as [|c s].
  - destruct old; [done|discriminate].
  - cbn [replace_from]. rewrite Hs, replace_from_skip.
    destruct old as [|o old]; [done|]. simpl. by rewrite Nat.sub_0_r.
Qed.

Lemma replace_other c s old new :
  startswith (c :: s) old = false →
  replace (c :: s) old new = c :: replace s old new.
Proof. intros Hs. unfold replace. cbn [replace_from]. by rewrite Hs. Qed.

(** [contains s old] decides whether [old] occurs in [s]. *)
Lemma occurs_contains s old : occurs old s → contains s old = true.
Proof.
  intros (a & b & ->). induction a as [|c a IH].
  - pose proof (startswith_app b old) as H.
    destruct (old ++ b); simpl; by rewrite H.
  - simpl. rewrite IH. apply orb_true_r.
Qed.

(** Without an occurrence of [old] the string is unchanged. *)
Lemma replace_no_occurrence s old new :
  ¬ occurs old s → replace s old new = s.
Proof.
  induction s as [|c s IH]; intros Hno; [done|].
  destruct (startswith (c :: s) old) eqn:Hs.
  - destruct Hno. apply startswith_inv in Hs.
    by exists [], (drop (length old) (c :: s)).
  - rewrite (replace_other _ _ _ _ Hs). f_equal. apply IH.
    intros (a & b & ->). apply Hno. by exists (c :: a), b.
Qed.

Lemma foldl_export_body fs : ∀ out,
  foldl export_body out fs = out ++ exported fs.
Proof.
  induction fs as [|f fs IH]; intros out; simpl; [by rewrite app_nil_r|].
  rewrite IH. unfold export_body. by rewrite <- app_assoc.
Qed.

Lemma docexport_spec self fs output_type :
  funcs self = Some fs →
  docexport self output_type =
    Ok (if decide (output_type = lit "lines")
        then OutLines (split newline (join [newline; newline] (exported fs)))
        else OutStr (join [newline; newline] (exported fs))).
Proof.
  intros Hfs. unfold docexport, get_funcs. rewrite Hfs.
  cbn [mbind res_bind mret res_ret]. rewrite foldl_export_body.
  by destruct (decide (output_type = lit "lines")).
Qed.

(** [search_hdr] and, after a [search], [docexport] return a value. *)
Lemma search_hdr_total self text : ∃ r, search_hdr self text = Ok r.
Proof.
  unfold search_hdr. rewrite search_spec. cbn [mbind res_bind mret res_ret].
  destruct (finditer func_re text) as [|m ms] eqn:Hms; [by eexists|].
  destruct (end_after_is_Some self (m :: ms)) as [en Hen]; [done|].
  cbn [length Nat.eqb negb end_]. rewrite Hen. by eexists.
Qed.

Lemma docexport_after_search self text self' n output_type :
  search self text = Ok (self', n) →
  ∃ o, docexport self' output_type = Ok o.
Proof.
  rewrite search_spec. intros [= <- _].
  erewrite docexport_spec by reflexivity. by eexists.
Qed.

End Exporter.

(** C4. For a session with the records [fs], [docexport] takes every
    record in order, replaces [docimport] by [docexport] in its substring
    and appends [;], joins the results with a blank line, and returns the
    lines of that string when the output type is ["lines"], the string
    itself otherwise. *)
Theorem docexport_renders (self : Docsync) (fs : list Func) (output_type : str) :
  funcs self = Some fs →
  let blocks :=
    map (λ f, replace (substring f) (lit "docimport") (lit "docexport")
              ++ lit ";") fs in
  let joined := join [newline; newline] blocks in
  docexport self output_type =
    Ok (if decide (output_type = lit "lines")
        then OutLines (split newline joined)
        else OutStr joined).
Proof. intros Hfs. by apply docexport_spec. Qed.

Lemma docexport_renders_witness :
  docexport session_after_scan (lit "lines") =
    Ok (OutLines [lit "/** [docexport g] *//** doc"; lit "*/"; lit "int g(a);"]).
Proof.
  rewrite (docexport_renders session_after_scan
             (default [] (funcs session_after_scan)) (lit "lines"));
    vm_compute; reflexivity.
Defined.

(** C8. In every session, the lines returned for ["lines"], joined with
    line breaks, are the string returned for ["joined"]; in a session
    without records both calls raise the same error. *)
Theorem docexport_lines_joined (self : Docsync) :
  match docexport self (lit "lines"), docexport self (lit "joined") with
  | Ok (OutLines ls), Ok (OutStr joined) => join [newline] ls = joined
  | Raise e, Raise e' => funcs self = None ∧ e = e'
  | _, _ => False
  end.
Proof.
  destruct (funcs self) as [fs|] eqn:Hfs.
  - rewrite !(docexport_spec _ _ _ Hfs).
    destruct (decide (lit "lines" = lit "lines")) as [_|Hn]; [|done].
    destruct (decide (lit "joined" = lit "lines")) as [He|_]; [done|].
    apply join_split.
  - unfold docexport, get_funcs. by rewrite Hfs.
Qed.

(** C9. A record whose substring has no occurrence of [docimport] is
    exported as that substring followed by [;]. *)
Theorem docexport_keeps_exported (self : Docsync) (fs : list Func) (i : nat)
    (f : Func) (output_type : str) :
  funcs self = Some fs →
  fs !! i = Some f →
  ¬ occurs (lit "docimport") (substring f) →
  ∃ out,
    docexport self output_type =
      Ok (if decide (output_type = lit "lines")
          then OutLines (split newline (join [newline; newline] out))
          else OutStr (join [newline; newline] out)) ∧
    length out = length fs ∧
    out !! i = Some (substring f ++ lit ";").
Proof.
  intros Hfs Hi Hno. exists (exported fs).
  split; [by apply docexport_spec|]. unfold exported.
  split; [by rewrite length_map|].
  rewrite list_lookup_fmap_Some_2 with (x := f); [|done].
  by rewrite replace_no_occurrence.
Qed.

Lemma docexport_keeps_exported_witness :
  ∃ f out,
    funcs session_exported = Some [f] ∧
    docexport session_exported (lit "joined") =
      Ok (OutStr (join [newline; newline] out)) ∧
    length out = 1 ∧
    out !! 0 = Some (substring f ++ lit ";").
Proof.
  destruct (funcs session_exported) as [[|f [|]]|] eqn:Hfs;
    try (vm_compute in Hfs; discriminate).
  destruct (docexport_keeps_exported session_exported [f] 0 f (lit "joined")
              Hfs eq_refl) as (out & Hout & Hlen & Hlook).
  - intros Hocc. apply occurs_contains in Hocc.
    vm_compute in Hfs. injection Hfs as <-. vm_compute in Hocc. discriminate.
  - exists f, out. repeat split; [|done|done].
    rewrite Hout. by destruct (decide (lit "joined" = lit "lines")).
Defined.

(** C7 fails on a new session: [funcs] is assigned by [search] only, so
    [docexport] on a new object raises [AttributeError] whatever the output
    type. *)
Theorem docexport_new_session_raises (output_type : str) :
  docexport init output_type = Raise AttributeError.
Proof. reflexivity. Qed.

(** * The shape of a match *)

Section Priority.

Implicit Types (p : ascii → bool) (k : cont) (s w : str) (m : marks).

Lemma derives_app re1 re2 : ∀ pos w m m',
  derives (re1 ++ re2) pos w m m' ↔
  ∃ w1 w2 m1, w = w1 ++ w2 ∧ derives re1 pos w1 m m1 ∧
              derives re2 (pos + length w1) w2 m1 m'.
Proof.
  induction re1 as [|it re1 IH]; intros pos w m m'; simpl.
  - split.
    + intros H. exists [], w, m. simpl. rewrite Nat.add_0_r. auto.
    + intros (w1 & w2 & m1 & -> & [-> ->] & H). simpl in H.
      by rewrite Nat.add_0_r in H.
  - split.
    + intros (w1 & w2 & -> & Hit & H).
      apply IH in H as (w3 & w4 & m1 & -> & H3 & H4).
      exists (w1 ++ w3), w4, m1. rewrite <- app_assoc, length_app, Nat.add_assoc.
      split; [done|]. split; [by exists w1, w3|done].
    + intros (w1 & w2 & m1 & -> & (w3 & w4 & -> & Hit & H3) & H2).
      exists w3, (w4 ++ w2). rewrite <- app_assoc. split; [done|].
      split; [done|]. apply IH. exists w4, w2, m1. split; [done|].
      split; [done|]. by rewrite length_app, Nat.add_assoc in H2.
Qed.

(** Items other than the group marks leave the marks as they are. *)
Lemma derives_marks re :
  (∀ it, it ∈ re → ∀ pos m, mark it pos m = m) →
  ∀ pos w m m', derives re pos w m m' → m' = m.
Proof.
  induction re as [|it re IH]; intros Hre pos w m m'; simpl.
  - by intros [_ ->].
  - intros (w1 & w2 & _ & _ & H). apply IH in H.
    + rewrite H. apply Hre. by left.
    + intros it' Hin. apply Hre. by right.
Qed.

Lemma derives_min_len re : ∀ pos w m m',
  derives re pos w m m' → sum_list (map min_len re) ≤ length w.
Proof.
  induction re as [|it re IH]; intros pos w m m'; simpl; [lia|].
  intros (w1 & w2 & -> & Hit & H). apply IH in H. rewrite length_app.
  assert (min_len it ≤ length w1); [|lia].
  destruct it as [p []|a b| |]; simpl in *; try lia.
  - by destruct Hit as (c & -> & _).
  - destruct Hit as [Hne _]. destruct w1; simpl; [done|lia].
  - destruct Hit as [-> | ->]; lia.
Qed.

(** A run of a pattern cut in two: the first part consumed a word it
    derives, and the second part ran on the rest. *)
Lemma run_app_sound re1 re2 : ∀ pos s m r,
  run (re1 ++ re2) pos s m = Some r →
  ∃ w s' m1, s = w ++ s' ∧ derives re1 pos w m m1 ∧
             run re2 (pos + length w) s' m1 = Some r.
Proof.
  induction re1 as [|it re1 IH]; intros pos s m r H; simpl in H.
  - exists [], s, m. simpl. rewrite Nat.add_0_r. auto.
  - apply step_sound in H as (w1 & s1 & -> & Hit & Hk).
    apply IH in Hk as (w2 & s' & m1 & -> & Hd & Hr).
    exists (w1 ++ w2), s', m1.
    rewrite <- app_assoc, length_app, Nat.add_assoc.
    split; [done|]. split; [|done]. simpl. by exists w1, w2.
Qed.

(** A lazy repetition stops at the first offset where the rest of the
    pattern succeeds. *)
Lemma lazy_first p k s : ∀ pos m r,
  lazy p k pos s m = Some r →
  ∃ w s', s = w ++ s' ∧ Forall (λ a, p a = true) w ∧
          k (pos + length w) s' m = Some r ∧
          ∀ i, i < length w → k (pos + i) (drop i s) m = None.
Proof.
  induction s as [|a s IH]; intros pos m r H; simpl in H.
  - apply orelse_Some in H as [H|[_ H]]; [|done].
    exists [], []. rewrite Nat.add_0_r. repeat split; [done|done|].
    simpl. lia.
  - apply orelse_Some in H as [H|[Hn H]].
    + exists [], (a :: s). rewrite Nat.add_0_r. repeat split; [done|done|].
      simpl. lia.
    + destruct (p a) eqn:Hp; [|done].
      apply IH in H as (w & s' & -> & Hw & Hk & Hfirst).
      exists (a :: w), s'. simpl. rewrite <- Nat.add_succ_comm.
      repeat split; [by constructor|done|].
      intros [|i] Hi; [by rewrite Nat.add_0_r|].
      rewrite <- Nat.add_succ_comm. apply Hfirst. lia.
Qed.

(** A greedy repetition stops at the longest repetition after which the
    rest of the pattern succeeds. *)
Lemma greedy_longest p k s : ∀ pos m r,
  greedy p k pos s m = Some r →
  ∃ w s', s = w ++ s' ∧ Forall (λ a, p a = true) w ∧
          k (pos + length w) s' m = Some r ∧
          ∀ w2 s2, s = w2 ++ s2 → Forall (λ a, p a = true) w2 →
                   length w < length w2 → k (pos + length w2) s2 m = None.
Proof.
  induction s as [|a s IH]; intros pos m r H; simpl in H.
  - exists [], []. rewrite Nat.add_0_r. repeat split; [done|done|].
    intros w2 s2 Hs _ Hlen. symmetry in Hs. apply app_eq_nil in Hs as [-> _].
    simpl in Hlen. lia.
  - destruct (p a) eqn:Hp.
    + apply orelse_Some in H as [H|[Hn H]].
      * apply IH in H as (w & s' & -> & Hw & Hk & Hlong).
        exists (a :: w), s'. simpl. rewrite <- Nat.add_succ_comm.
        repeat split; [by constructor|done|].
        intros [|b w2] s2 Hs Hw2 Hlen; [simpl in Hlen; lia|].
        simpl in Hs. injection Hs as <- Hs. inversion Hw2; subst.
        simpl. rewrite <- Nat.add_succ_comm. apply (Hlong w2 s2); [done|done|].
        simpl in Hlen. lia.
      * exists [], (a :: s). rewrite Nat.add_0_r. repeat split; [done|done|].
        intros [|b w2] s2 Hs Hw2 Hlen; [simpl in Hlen; lia|].
        simpl in Hs. injection Hs as <- ->. inversion Hw2; subst.
        destruct (k (pos + length (a :: w2)) s2 m) as [r'|] eqn:Hk; [|done].
        destruct (greedy_complete p k w2 (S pos) s2 m) as [r'' Hr]; [done| |].
        -- simpl in Hk. rewrite <- Nat.add_succ_comm in Hk. by rewrite Hk.
        -- by rewrite Hr in Hn.
    + exists [], (a :: s). rewrite Nat.add_0_r. repeat split; [done|done|].
      intros [|b w2] s2 Hs Hw2 Hlen; [simpl in Hlen; lia|].
      simpl in Hs. injection Hs as <- ->. inversion Hw2; subst. congruence.
Qed.

Lemma after_paren_is_Some pos rest m :
  is_Some (step (chr ")") (step (Cls (Ascii.eqb ";") Opt) accept) pos
             (")"%char :: rest) m).
Proof.
  cbn [step chr]. rewrite Ascii.eqb_refl. destruct rest as [|d t]; [by eexists|].
  destruct (Ascii.eqb ";" d); by eexists.
Qed.

(** The end of the signature: the argument list stops at the first [)],
    and a [;] that follows is taken. *)
Lemma run_after_name pos s m e m' :
  run after_name pos s m = Some (e, m') →
  ∃ args semi s',
    s = "("%char :: args ++ ")"%char :: semi ++ s' ∧
    (")"%char ∉ args) ∧
    (semi = [] ∧ head s' ≠ Some ";"%char ∨ semi = [";"%char]) ∧
    e = pos + length ("("%char :: args ++ ")"%char :: semi) ∧ m' = m.
Proof.
  change (run after_name) with
    (step (chr "(") (lazy any_char
       (step (chr ")") (step (Cls (Ascii.eqb ";") Opt) accept)))).
  intros H. apply step_sound in H as (w0 & s0 & -> & (c & -> & Hc) & H).
  apply Ascii.eqb_eq in Hc as <-. cbn [mark chr] in H.
  apply lazy_first in H as (w & s' & -> & _ & Hk & Hfirst).
  assert (")"%char ∉ w) as Hnot.
  { intros Hin. apply list_elem_of_lookup in Hin as [i Hi].
    pose proof (lookup_lt_Some _ _ _ Hi) as Hlt.
    specialize (Hfirst i Hlt).
    rewrite (drop_S _ ")"%char) in Hfirst by (by rewrite lookup_app_l).
    pose proof (after_paren_is_Some (pos + length ["("%char] + i)
                  (drop (S i) (w ++ s')) m) as Hs.
    rewrite Hfirst in Hs. by destruct Hs. }
  apply step_sound in Hk as (w1 & s1 & -> & (c & -> & Hc) & Hk).
  apply Ascii.eqb_eq in Hc as <-. cbn [mark chr step] in Hk.
  exists w. cbn [length] in *. destruct s1 as [|d s1].
  - injection Hk as <- <-. exists [], []. rewrite !length_app. simpl.
    repeat split; [done|by left|lia].
  - destruct (Ascii.eqb ";" d) eqn:Hd.
    + apply Ascii.eqb_eq in Hd as <-. injection Hk as <- <-.
      exists [";"%char], s1. rewrite !length_app. simpl.
      repeat split; [done|by right|lia].
    + apply Ascii.eqb_neq in Hd. injection Hk as <- <-.
      exists [], (d :: s1). rewrite !length_app. simpl.
      repeat split; [done| |lia]. left. split; [done|]. simpl. congruence.
Qed.

(** The words a pattern derives do not depend on the offset or on the
    marks. *)
Lemma derives_shift re : ∀ pos w m m' pos2 m2,
  derives re pos w m m' → ∃ m2', derives re pos2 w m2 m2'.
Proof.
  induction re as [|it re IH]; intros pos w m m' pos2 m2; simpl.
  - intros [-> _]. by exists m2.
  - intros (w1 & w2 & -> & Hit & H).
    destruct (IH _ _ _ _ (pos2 + length w1) (mark it pos2 m2) H) as [m2' H2].
    exists m2', w1, w2. auto.
Qed.

Lemma space_not_word c : is_space c = true → is_word c = false.
Proof.
  destruct c as [[|] [|] [|] [|] [|] [|] [|] [|]]; vm_compute; congruence.
Qed.

Lemma last_app_lookup (l rest : str) :
  l ≠ [] → (l ++ rest) !! (length l - 1) = last l.
Proof.
  intros Hne. rewrite lookup_app_l by (destruct l; simpl; [done|lia]).
  by rewrite last_lookup, Nat.sub_1_r.
Qed.

(** The signature line: when the character before the name is a word
    character, the return type took every character but the last, and the
    name is that last character. *)
Lemma run_signature_name q s0 m0 e ns ne :
  run signature_re q s0 m0 = Some (e, (ns, ne)) →
  q < ns ∧
  ∀ c, s0 !! (ns - q - 1) = Some c → is_word c = true → ne = ns + 1.
Proof.
  change (run signature_re) with
    (step (Cls is_word Plus)
       (run ([Cls is_space Star; Cls (Ascii.eqb "*") Opt; Cls is_space Star;
              GroupOpen; Cls is_word Plus; GroupClose] ++ after_name))).
  cbn [step]. destruct s0 as [|a s1]; [done|].
  destruct (is_word a) eqn:Ha; [|done]. intros H.
  apply greedy_longest in H as (w & s' & -> & Hw & Hk & Hlong).
  apply run_sound in Hk as (w' & s'' & -> & _ & Hd).
  apply derives_app in Hd as (w1 & tl & m1 & -> & H1 & H2).
  assert ((ns, ne) = m1) as Hm.
  { revert H2. apply derives_marks. intros it Hin pos' m'.
    unfold after_name, func_re in Hin. simpl in Hin.
    repeat (apply elem_of_cons in Hin as [->|Hin]; [done|]).
    by apply elem_of_nil in Hin. }
  cbn [derives item_lang mark fst snd] in H1.
  destruct H1 as (sp1 & ? & -> & Hsp1 & st & ? & -> & Hst & sp2 & ? & -> &
                  Hsp2 & ? & ? & -> & -> & nm & ? & -> & [Hne Hnm] &
                  ? & ? & -> & -> & -> & Hm1).
  rewrite Hm1 in Hm. injection Hm as -> ->. cbn [length] in *.
  rewrite !Nat.add_0_r in *. split; [lia|].
  intros c Hc Hword. rewrite !app_nil_r, !app_nil_l in *.
  set (pre := a :: w ++ sp1 ++ st ++ sp2).
  assert (last pre = Some c) as Hlast.
  { rewrite <- (last_app_lookup pre (nm ++ tl ++ s'')) by done.
    rewrite <- Hc. unfold pre.
    repeat first [rewrite <- app_assoc | rewrite <- app_comm_cons].
    f_equal. cbn [length]. rewrite !length_app. lia. }
  assert (sp2 = []) as ->.
  { destruct sp2 as [|x sp2 _] using rev_ind; [done|].
    unfold pre in Hlast. rewrite app_comm_cons, !app_assoc, last_snoc in Hlast.
    injection Hlast as ->. apply Forall_app in Hsp2 as [_ Hx].
    inversion Hx as [|? ? Hsp _]; subst. apply space_not_word in Hsp.
    congruence. }
  assert (st = []) as ->.
  { destruct Hst as [->|(x & -> & Hx)]; [done|].
    unfold pre in Hlast. rewrite app_nil_r, app_comm_cons, !app_assoc,
      last_snoc in Hlast.
    injection Hlast as ->. apply Ascii.eqb_eq in Hx as <-.
    vm_compute in Hword. discriminate. }
  assert (sp1 = []) as ->.
  { destruct sp1 as [|x sp1 _] using rev_ind; [done|].
    unfold pre in Hlast. rewrite !app_nil_r, app_comm_cons, !app_assoc,
      last_snoc in Hlast.
    injection Hlast as ->. apply Forall_app in Hsp1 as [_ Hx].
    inversion Hx as [|? ? Hsp _]; subst. apply space_not_word in Hsp.
    congruence. }
  cbn [length app] in *. rewrite !Nat.add_0_r in *.
  destruct nm as [|n1 nm']; [done|]. destruct nm' as [|n2 nm']; [simpl; lia|].
  exfalso. inversion Hnm as [|? ? Hn1 Hnm']; subst.
  destruct (derives_shift _ _ _ _ _
              (S q + length (w ++ [n1]) + length (n2 :: nm'))
              (S q + length (w ++ [n1]),
               S q + length (w ++ [n1]) + length (n2 :: nm')) H2)
    as [m2' H2'].
  assert (is_Some (run ([Cls is_space Star; Cls (Ascii.eqb "*") Opt;
                         Cls is_space Star; GroupOpen; Cls is_word Plus;
                         GroupClose] ++ after_name)
                     (S q + length (w ++ [n1]))
                     (((n2 :: nm') ++ tl) ++ s'') m0)) as [r Hr].
  { apply (run_complete _ _ _ _ _ m2'). apply derives_app.
    exists (n2 :: nm'), tl, (S q + length (w ++ [n1]),
                             S q + length (w ++ [n1]) + length (n2 :: nm')).
    split; [done|]. split; [|done].
    cbn [derives item_lang mark fst snd].
    exists [], (n2 :: nm'). split; [done|]. split; [done|].
    exists [], (n2 :: nm'). split; [done|]. split; [by left|].
    exists [], (n2 :: nm'). split; [done|]. split; [done|].
    exists [], (n2 :: nm'). split; [done|]. split; [done|].
    exists (n2 :: nm'), []. split; [by rewrite app_nil_r|]. split; [done|].
    exists [], []. split; [done|]. split; [done|]. split; [done|].
    cbn [length]. by rewrite !Nat.add_0_r. }
  assert (run ([Cls is_space Star; Cls (Ascii.eqb "*") Opt;
                Cls is_space Star; GroupOpen; Cls is_word Plus;
                GroupClose] ++ after_name)
            (S q + length (w ++ [n1]))
            (((n2 :: nm') ++ tl) ++ s'') m0 = None) as Hnone.
  { apply (Hlong (w ++ [n1]) (((n2 :: nm') ++ tl) ++ s'')).
    - by repeat first [rewrite <- app_assoc | rewrite <- app_comm_cons].
    - apply Forall_app. split; [done|]. by constructor.
    - rewrite length_app. simpl. lia. }
  by rewrite Hnone in Hr.
Qed.

End Priority.

Section Shape.

Implicit Types (text s w : str) (m : marks) (self : Docsync).

Lemma func_re_parts :
  func_re =
    before_name ++ [GroupOpen; Cls is_word Plus; GroupClose] ++ after_name.
Proof. reflexivity. Qed.

Lemma before_name_marks pos w m m' : derives before_name pos w m m' → m' = m.
Proof.
  apply derives_marks. intros it Hin pos' m0.
  unfold before_name, func_re in Hin. simpl in Hin.
  repeat (apply elem_of_cons in Hin as [->|Hin]; [done|]).
  by apply elem_of_nil in Hin.
Qed.

(** What a match at an offset looks like: the part before the name, the
    name between the marks, and the argument list up to the first [)]. *)
Lemma match_at_shape pos s mt :
  match_at func_re pos s = Some mt →
  ∃ hd nm args semi s',
    s = hd ++ nm ++ "("%char :: args ++ ")"%char :: semi ++ s' ∧
    derives before_name pos hd (0, 0) (0, 0) ∧
    nm ≠ [] ∧ Forall (λ a, is_word a = true) nm ∧
    (")"%char ∉ args) ∧
    (semi = [] ∧ head s' ≠ Some ";"%char ∨ semi = [";"%char]) ∧
    m_start mt = pos ∧
    m_name mt = (pos + length hd, pos + length hd + length nm) ∧
    m_end mt =
      pos + length (hd ++ nm ++ "("%char :: args ++ ")"%char :: semi).
Proof.
  unfold match_at.
  destruct (run func_re pos s (0, 0)) as [[e m']|] eqn:H; [|done].
  intros [= <-]. rewrite func_re_parts in H.
  apply run_app_sound in H as (hd & s1 & m1 & -> & Hhd & H).
  pose proof (before_name_marks _ _ _ _ Hhd) as ->.
  apply run_app_sound in H as (w2 & s2 & m2 & -> & Hnm & H).
  cbn [derives item_lang mark fst snd] in Hnm.
  destruct Hnm as (? & ? & -> & -> & nm & ? & -> & [Hne Hw] & ? & ? & -> & -> &
                   -> & ->).
  apply run_after_name in H as (args & semi & s' & -> & Hargs & Hsemi & -> & ->).
  exists hd, nm, args, semi, s'. cbn [m_start m_end m_name].
  rewrite !app_nil_r, !app_nil_l in *. cbn [length] in *.
  rewrite !Nat.add_0_r.
  repeat split; try done.
  rewrite !length_app. cbn [length]. rewrite !length_app. cbn [length]. lia.
Qed.

(** A name that directly follows a word character is one character
    long. *)
Lemma match_at_short_name pos s mt hd nm rest :
  match_at func_re pos s = Some mt →
  s = hd ++ nm ++ rest →
  m_name mt = (pos + length hd, pos + length hd + length nm) →
  ∀ c, last hd = Some c → is_word c = true → length nm = 1.
Proof.
  unfold match_at.
  destruct (run func_re pos s (0, 0)) as [[e [ns ne]]|] eqn:H; [|done].
  intros [= <-] Hs [= -> ->] c Hc Hw.
  change func_re with (take 18 func_re ++ signature_re) in H.
  apply run_app_sound in H as (w0 & s0 & m0 & Hs0 & _ & H).
  apply run_signature_name in H as [Hlt Hshort].
  assert (hd ≠ []) as Hne by (by intros ->).
  assert (length hd ≠ 0) by (by destruct hd).
  assert (s0 !! (pos + length hd - (pos + length w0) - 1) = Some c) as Hc0.
  { rewrite <- Hc, <- (last_app_lookup hd (nm ++ rest)), <- Hs, Hs0 by done.
    rewrite lookup_app_r by lia. f_equal. lia. }
  specialize (Hshort c Hc0 Hw). lia.
Qed.

Lemma slice_drop_app text p a b rest :
  drop p text = a ++ b ++ rest →
  slice text (p + length a) (p + length a + length b) = b.
Proof.
  intros H. unfold slice.
  replace (p + length a + length b - (p + length a)) with (length b) by lia.
  by rewrite <- drop_drop, H, drop_app_length, take_app_length.
Qed.

(** Every match of [finditer] is the match at some offset of the text. *)
Lemma finditer_elem text mt : ∀ n pos,
  length text - pos ≤ n → pos ≤ length text →
  mt ∈ finditer_from func_re pos 0 (drop pos text) →
  ∃ p, p ≤ length text ∧ match_at func_re p (drop p text) = Some mt.
Proof.
  induction n as [|n IH]; intros pos Hn Hpos Hin.
  - assert (pos = length text) as -> by lia.
    rewrite drop_all, finditer_from_nil in Hin. by apply elem_of_nil in Hin.
  - destruct (match_at func_re pos (drop pos text)) as [mt'|] eqn:H.
    + rewrite (finditer_from_match _ _ _ H) in Hin.
      destruct (to_func_tagged_block _ _ _ Hpos H) as (_ & _ & _ & Hlt).
      apply elem_of_cons in Hin as [->|Hin]; [by exists pos|].
      rewrite drop_drop in Hin.
      replace (pos + (m_end mt' - pos)) with (m_end mt') in Hin by lia.
      apply (IH (m_end mt')); [lia|lia|done].
    + destruct (drop pos text) as [|c s] eqn:Hs.
      * rewrite finditer_from_nil in Hin. by apply elem_of_nil in Hin.
      * rewrite (finditer_from_no_match _ _ _ H) in Hin.
        assert (s = drop (S pos) text) as ->.
        { replace (S pos) with (pos + 1) by lia.
          by rewrite <- drop_drop, Hs. }
        assert (length (drop pos text) = S (length (drop (S pos) text))) as Hl
          by (by rewrite Hs).
        rewrite !length_drop in Hl.
        apply (IH (S pos)); [lia|lia|done].
Qed.

(** The record of a match, piece by piece. *)
Lemma record_shape text f :
  f ∈ map (to_func text) (finditer func_re text) →
  ∃ hd args semi,
    substring f = hd ++ name f ++ "("%char :: args ++ ")"%char :: semi ∧
    substring f = slice text (fst (span f)) (snd (span f)) ∧
    snd (span f) = fst (span f) + length (substring f) ∧
    snd (span f) ≤ length text ∧
    derives before_name (fst (span f)) hd (0, 0) (0, 0) ∧
    name f ≠ [] ∧ Forall (λ a, is_word a = true) (name f) ∧
    (")"%char ∉ args) ∧
    (semi = [] ∧ text !! snd (span f) ≠ Some ";"%char ∨ semi = [";"%char]) ∧
    (∀ c, last hd = Some c → is_word c = true → length (name f) = 1).
Proof.
  intros Hin. apply list_elem_of_fmap in Hin as (mt & -> & Hin).
  unfold finditer in Hin. rewrite <- (drop_0 text) in Hin.
  apply (finditer_elem text mt (length text) 0) in Hin as (p & Hp & Hm);
    [|lia|lia].
  pose proof Hm as Hm'.
  apply match_at_shape in Hm
    as (hd & nm & args & semi & s' & Hs & Hhd & Hne & Hw & Hargs & Hsemi &
        Hst & Hname & Hend).
  pose proof (match_at_short_name _ _ _ _ _ _ Hm' Hs Hname) as Hshort.
  set (w := hd ++ nm ++ "("%char :: args ++ ")"%char :: semi) in *.
  assert (drop p text = w ++ s') as Hws.
  { rewrite Hs. unfold w. rewrite <- !app_assoc. simpl.
    by rewrite <- !app_assoc. }
  assert (length text - p = length w + length s') as Hlen
    by (by rewrite <- length_drop, Hws, length_app).
  assert (slice text p (p + length w) = w) as Hsl.
  { unfold slice. replace (p + length w - p) with (length w) by lia.
    by rewrite Hws, take_app_length. }
  assert (slice text (p + length hd) (p + length hd + length nm) = nm) as Hnm
    by (by eapply slice_drop_app).
  exists hd, args, semi.
  unfold to_func, group0, group_name. cbn [substring name span fst snd].
  rewrite Hst, Hend, Hname. cbn [fst snd]. rewrite Hsl, Hnm.
  assert (0 < length w).
  { unfold w. rewrite !length_app. cbn [length]. lia. }
  repeat split; try done; [lia|].
  destruct Hsemi as [[-> Hh]| ->]; [left|by right]. split; [done|].
  intros Ht. apply Hh.
  rewrite <- (lookup_drop text p (length w)) in Ht.
  rewrite Hws, lookup_app_r, Nat.sub_diag in Ht by lia.
  by destruct s'.
Qed.

End Shape.

Section Records.

Implicit Types (text s w : str) (m : marks) (self : Docsync).

Lemma occurs_app_l old a s : occurs old s → occurs old (a ++ s).
Proof.
  intros (x & y & ->). exists (a ++ x), y. by rewrite <- app_assoc.
Qed.

Lemma occurs_app_r old s b : occurs old s → occurs old (s ++ b).
Proof.
  intros (x & y & ->). exists x, (y ++ b). by rewrite <- !app_assoc.
Qed.

Lemma occurs_here old b : occurs old (old ++ b).
Proof. by exists [], b. Qed.

(** The part of a match before the name: the opening of the comment, the
    tag, and further on a [/] directly followed by a line break. *)
Lemma before_name_shape pos hd m m' :
  derives before_name pos hd m m' →
  ∃ stars ws tag rest r1 r2,
    hd = "/"%char :: stars ++ ws ++ "["%char :: tag ++ rest ∧
    stars ≠ [] ∧ Forall (λ a, a = "*"%char) stars ∧
    ws ≠ [] ∧ Forall (λ a, is_space a = true) ws ∧
    (tag = lit "docimport" ∨ tag = lit "docexport") ∧
    rest = r1 ++ "/"%char :: newline :: r2 ∧ 25 ≤ length hd.
Proof.
  intros H. pose proof (derives_min_len _ _ _ _ _ H) as Hlen.
  change (sum_list (map min_len before_name)) with 25 in Hlen.
  change before_name with
    ([chr "/"; Cls (Ascii.eqb "*") Plus; Cls is_space Plus; chr "[";
      Alt (lit "docimport") (lit "docexport")] ++
     take 11 (drop 5 before_name) ++ [chr "/"; chr newline] ++
     drop 18 before_name) in H.
  apply derives_app in H as (w1 & w2 & m1 & -> & H1 & H2).
  apply derives_app in H2 as (w3 & w4 & m3 & -> & _ & H4).
  apply derives_app in H4 as (w5 & w6 & m5 & -> & H5 & _).
  cbn [derives item_lang chr] in H1, H5.
  destruct H5 as (? & ? & -> & (c & -> & Hc) & ? & ? & -> & (d & -> & Hd) &
                  -> & _).
  apply Ascii.eqb_eq in Hc as <-. apply Ascii.eqb_eq in Hd as <-.
  destruct H1 as (? & ? & -> & (c & -> & Hc) & stars & ? & -> & [Hs1 Hs2] &
                  ws & ? & -> & [Hw1 Hw2] & ? & ? & -> & (d & -> & Hd) &
                  tag & ? & -> & Htag & -> & _).
  apply Ascii.eqb_eq in Hc as <-. apply Ascii.eqb_eq in Hd as <-.
  exists stars, ws, tag, (w3 ++ ["/"%char; newline] ++ w6), w3, w6.
  rewrite app_nil_r in *. repeat split; try done.
  - simpl. by rewrite <- !app_assoc.
  - eapply Forall_impl; [exact Hs2|]. intros a Ha. cbv beta in Ha.
    by apply Ascii.eqb_eq in Ha.
Qed.

(** A tagged block contains one of the two tags. *)
Lemma block_at_occurs text p :
  block_at text p →
  occurs (lit "docimport") text ∨ occurs (lit "docexport") text.
Proof.
  intros (w & s' & m' & Hs & Hd). rewrite func_re_parts in Hd.
  apply derives_app in Hd as (hd & w2 & m1 & -> & Hhd & _).
  apply before_name_shape in Hhd
    as (stars & ws & tag & rest & r1 & r2 & -> & _ & _ & _ & _ & Htag & _).
  assert (occurs tag text) as Hocc.
  { rewrite <- (take_drop p text), Hs.
    apply occurs_app_l, occurs_app_r, occurs_app_r.
    apply (occurs_app_l _ ["/"%char]), occurs_app_l, occurs_app_l.
    apply (occurs_app_l _ ["["%char]), occurs_here. }
  destruct Htag as [-> | ->]; auto.
Qed.

(** A tagged block contains a [/] directly followed by a line break: the
    end of the comment before the signature. *)
Lemma block_at_occurs_close text p :
  block_at text p → occurs ["/"%char; newline] text.
Proof.
  intros (w & s' & m' & Hs & Hd). rewrite func_re_parts in Hd.
  apply derives_app in Hd as (hd & w2 & m1 & -> & Hhd & _).
  apply before_name_shape in Hhd
    as (stars & ws & tag & rest & r1 & r2 & -> & _ & _ & _ & _ & _ & -> & _).
  rewrite <- (take_drop p text), Hs.
  apply occurs_app_l, occurs_app_r, occurs_app_r.
  apply (occurs_app_l _ ["/"%char]), occurs_app_l, occurs_app_l.
  apply (occurs_app_l _ ["["%char]), occurs_app_l, occurs_app_l.
  by exists [], r2.
Qed.

(** The state after [search], and its records, in one statement. *)
Lemma search_records self text :
  ∃ self',
    search self text =
      Ok (self', length (map (to_func text) (finditer func_re text))) ∧
    funcs self' = Some (map (to_func text) (finditer func_re text)).
Proof.
  eexists. split; [by rewrite search_spec, length_map|reflexivity].
Qed.

End Records.

(** X1. In every record that [search] makes, the name is a non-empty word
    of [\w] characters; in the substring it comes after at least 25
    characters and is directly followed by [(]. *)
Theorem search_record_name (self : Docsync) (text : str) :
  ∃ self' fs,
    search self text = Ok (self', length fs) ∧ funcs self' = Some fs ∧
    Forall (λ f,
      name f ≠ [] ∧ Forall (λ a, is_word a = true) (name f) ∧
      ∃ hd rest, substring f = hd ++ name f ++ "("%char :: rest ∧
                 25 ≤ length hd) fs.
Proof.
  destruct (search_records self text) as (self' & Hs & Hfs).
  exists self', (map (to_func text) (finditer func_re text)).
  split; [exact Hs|]. split; [exact Hfs|].
  apply Forall_forall. intros f Hf.
  apply record_shape in Hf
    as (hd & args & semi & Hsub & _ & _ & _ & Hhd & Hne & Hw & _).
  apply before_name_shape in Hhd
    as (? & ? & ? & ? & ? & ? & _ & _ & _ & _ & _ & _ & _ & Hlen).
  repeat split; [done|done|]. by exists hd, (args ++ ")"%char :: semi).
Qed.

(** X2. The substring of a record ends at the first [)] after the [(] that
    follows the name, or at a [;] directly after that [)]; a record that
    ends with [)] is not followed by [;] in the text. *)
Theorem search_record_signature_end (self : Docsync) (text : str) :
  ∃ self' fs,
    search self text = Ok (self', length fs) ∧ funcs self' = Some fs ∧
    Forall (λ f,
      ∃ hd args semi,
        substring f = hd ++ name f ++ "("%char :: args ++ ")"%char :: semi ∧
        (")"%char ∉ args) ∧
        (semi = [] ∧ text !! snd (span f) ≠ Some ";"%char ∨
         semi = [";"%char])) fs.
Proof.
  destruct (search_records self text) as (self' & Hs & Hfs).
  exists self', (map (to_func text) (finditer func_re text)).
  split; [exact Hs|]. split; [exact Hfs|].
  apply Forall_forall. intros f Hf.
  apply record_shape in Hf
    as (hd & args & semi & Hsub & _ & _ & _ & _ & _ & _ & Hargs & Hsemi & _).
  by exists hd, args, semi.
Qed.

(** X3. The substring of a record begins with [/], one or more [*],
    whitespace and [[docimport] or [[docexport]; it has at least 28
    characters. *)
Theorem search_record_opening (self : Docsync) (text : str) :
  ∃ self' fs,
    search self text = Ok (self', length fs) ∧ funcs self' = Some fs ∧
    Forall (λ f,
      28 ≤ length (substring f) ∧
      ∃ stars ws tag rest,
        substring f = "/"%char :: stars ++ ws ++ "["%char :: tag ++ rest ∧
        stars ≠ [] ∧ Forall (λ a, a = "*"%char) stars ∧
        ws ≠ [] ∧ Forall (λ a, is_space a = true) ws ∧
        (tag = lit "docimport" ∨ tag = lit "docexport")) fs.
Proof.
  destruct (search_records self text) as (self' & Hs & Hfs).
  exists self', (map (to_func text) (finditer func_re text)).
  split; [exact Hs|]. split; [exact Hfs|].
  apply Forall_forall. intros f Hf.
  apply record_shape in Hf
    as (hd & args & semi & Hsub & _ & _ & _ & Hhd & Hne & _).
  apply before_name_shape in Hhd
    as (stars & ws & tag & rest & r1 & r2 & Hhd & Hs1 & Hs2 & Hw1 & Hw2 & Htag &
        _ & Hlen).
  split.
  - rewrite Hsub, !length_app. cbn [length]. rewrite !length_app.
    cbn [length]. destruct (name f); [done|]. simpl. lia.
  - exists stars, ws, tag,
      (rest ++ name f ++ "("%char :: args ++ ")"%char :: semi).
    rewrite Hsub, Hhd. repeat split; try done.
    by repeat first [rewrite <- app_assoc | rewrite <- app_comm_cons].
Qed.

(** X4. In a record whose name comes directly after a word character,
    that is, with nothing between the return type and the name, the name
    is one character long: the return type takes all the characters
    before it. *)
Theorem search_record_short_name (self : Docsync) (text : str) :
  ∃ self' fs,
    search self text = Ok (self', length fs) ∧ funcs self' = Some fs ∧
    Forall (λ f,
      ∃ hd rest,
        substring f = hd ++ name f ++ "("%char :: rest ∧ 25 ≤ length hd ∧
        ∀ c, last hd = Some c → is_word c = true → length (name f) = 1) fs.
Proof.
  destruct (search_records self text) as (self' & Hs & Hfs).
  exists self', (map (to_func text) (finditer func_re text)).
  split; [exact Hs|]. split; [exact Hfs|].
  apply Forall_forall. intros f Hf.
  apply record_shape in Hf
    as (hd & args & semi & Hsub & _ & _ & _ & Hhd & _ & _ & _ & _ & Hshort).
  apply before_name_shape in Hhd
    as (? & ? & ? & ? & ? & ? & _ & _ & _ & _ & _ & _ & _ & Hlen).
  by exists hd, (args ++ ")"%char :: semi).
Qed.

(** X5. A text in which neither [docimport] nor [docexport] occurs has no
    record: [search] returns 0, empties the records and leaves [start] and
    [end] as they were. *)
Theorem search_without_tag (self : Docsync) (text : str) :
  ¬ occurs (lit "docimport") text →
  ¬ occurs (lit "docexport") text →
  search self text = Ok (mkDocsync (start self) (end_ self) (Some []), 0).
Proof.
  intros Hi He. apply search_no_match, finditer_nil_iff.
  intros p Hb. apply block_at_occurs in Hb as [H|H]; auto.
Qed.

Lemma search_without_tag_witness :
  search init header_no_block = Ok (mkDocsync None None (Some []), 0).
Proof.
  apply (search_without_tag init header_no_block).
  - intros H. apply occurs_contains in H. vm_compute in H. discriminate.
  - intros H. apply occurs_contains in H. vm_compute in H. discriminate.
Defined.

(** X6. A text in which no [/] is directly followed by a line break has
    no record, since the comment before the signature must end with [/]
    and a line break; so a text whose lines end with a carriage return and
    a line break has none. *)
Theorem search_without_comment_end (self : Docsync) (text : str) :
  ¬ occurs ["/"%char; newline] text →
  search self text = Ok (mkDocsync (start self) (end_ self) (Some []), 0).
Proof.
  intros Hno. apply search_no_match, finditer_nil_iff.
  intros p Hb. by apply block_at_occurs_close in Hb.
Qed.

Lemma search_without_comment_end_witness :
  search init text_block_crlf = Ok (mkDocsync None None (Some []), 0).
Proof.
  apply (search_without_comment_end init text_block_crlf).
  intros H. apply occurs_contains in H. vm_compute in H. discriminate.
Defined.

(** * Sessions that scan more than once *)

Section Sessions.

Implicit Types (text : str) (texts : list str) (self : Docsync).

Lemma scans_total texts : ∀ self, ∃ self', scans self texts = Ok self'.
Proof.
  induction texts as [|text texts IH]; intros self; [by eexists|].
  cbn [scans]. rewrite search_spec. cbn [mbind res_bind]. apply IH.
Qed.

Lemma scans_app texts1 texts2 : ∀ self self1,
  scans self texts1 = Ok self1 →
  scans self (texts1 ++ texts2) = scans self1 texts2.
Proof.
  induction texts1 as [|text texts1 IH]; intros self self1 H.
  - by injection H as ->.
  - cbn [scans app] in *. rewrite search_spec in *. cbn [mbind res_bind] in *.
    by apply IH.
Qed.

(** Texts without a match leave [start] as it is. *)
Lemma scans_no_record texts : ∀ self,
  Forall (λ t, finditer func_re t = []) texts →
  ∃ self', scans self texts = Ok self' ∧ start self' = start self.
Proof.
  induction texts as [|text texts IH]; intros self H; [by eexists|].
  inversion H as [|? ? Ht Hts]; subst.
  cbn [scans]. rewrite (search_no_match _ _ Ht). cbn [mbind res_bind].
  destruct (IH (set_funcs (Some []) self) Hts) as (self' & -> & Hst).
  by exists self'.
Qed.

End Sessions.

(** X7. Whatever a session scanned before, the records after a scan of
    [text], and the number returned, are those that a new session finds in
    [text]: the records of earlier scans are dropped. *)
Theorem scans_records_of_last (self : Docsync) (texts : list str) (text : str) :
  ∃ self' self0 n,
    scans self (texts ++ [text]) = Ok self' ∧
    search init text = Ok (self0, n) ∧
    funcs self' = funcs self0 ∧
    (∀ fs, funcs self' = Some fs → length fs = n).
Proof.
  destruct (scans_total texts self) as [self1 H1].
  rewrite (scans_app _ [text] _ _ H1). cbn [scans].
  rewrite !search_spec. cbn [mbind res_bind mret res_ret].
  eexists _, _, _. repeat split.
  cbn [funcs]. intros fs [= <-]. by rewrite length_map.
Qed.

(** X8. Scanning the same text a second time changes nothing: the session
    and the number returned are the same as after the first scan. *)
Theorem search_again_same (self : Docsync) (text : str) :
  ∃ self' n,
    search self text = Ok (self', n) ∧ search self' text = Ok (self', n).
Proof.
  eexists _, _. split; [apply search_spec|]. rewrite search_spec.
  unfold start_after, end_after. cbn [start end_ funcs].
  destruct (start self) as [st|]; destruct (finditer func_re text) as [|m ms];
    try done.
  all: cbn [head fmap option_fmap option_map]; by destruct (last (m :: ms)).
Qed.

(** X9. Over the scans of a new session, [start] is where the first record
    of the first text with a record begins: texts without a record leave it
    unset, and no scan after that one changes it. *)
Theorem scans_start_first (texts1 texts2 : list str) (text : str)
    (self0 : Docsync) (n : nat) (f : Func) (fs : list Func) :
  Forall (λ t, ∃ s, search init t = Ok (s, 0)) texts1 →
  search init text = Ok (self0, n) →
  funcs self0 = Some (f :: fs) →
  ∃ self', scans init (texts1 ++ text :: texts2) = Ok self' ∧
           start self' = Some (fst (span f)).
Proof.
  intros H1 Hs Hfs.
  destruct (scans_no_record texts1 init) as (self1 & Hsc & Hst).
  { eapply Forall_impl; [exact H1|]. intros t [s Ht].
    rewrite search_spec in Ht. injection Ht as _ Hlen.
    by destruct (finditer func_re t). }
  rewrite (scans_app _ (text :: texts2) _ _ Hsc). cbn [scans].
  rewrite search_spec in Hs |- *. cbn [mbind res_bind].
  injection Hs as <- _. cbn [funcs] in Hfs.
  apply scans_start_kept. unfold start_after. cbn [start]. rewrite Hst.
  destruct (finditer func_re text) as [|m ms]; [done|].
  by injection Hfs as <- _.
Qed.

Lemma scans_start_first_witness :
  ∃ self', scans init ([header_no_block] ++ text_block_at_5 ::
                       [text_block_at_0; header_one_block]) = Ok self' ∧
           start self' = Some 5.
Proof.
  destruct (search init text_block_at_5) as [[self0 n]|] eqn:Hs;
    [|vm_compute in Hs; discriminate].
  destruct (funcs self0) as [[|f fs]|] eqn:Hfs;
    [vm_compute in Hs; injection Hs as <- _; vm_compute in Hfs; discriminate|
    |vm_compute in Hs; injection Hs as <- _; vm_compute in Hfs; discriminate].
  assert (fst (span f) = 5) as <-.
  { vm_compute in Hs. injection Hs as <- _. vm_compute in Hfs.
    by injection Hfs as <- _. }
  apply (scans_start_first [header_no_block]
           [text_block_at_0; header_one_block] text_block_at_5 self0 n f fs);
    [|done|done].
  constructor; [|constructor]. eexists. vm_compute. reflexivity.
Defined.

(** Texts without a match leave [end] as it is, too. *)
Lemma scans_no_record_end (texts : list str) : ∀ self,
  Forall (λ t, finditer func_re t = []) texts →
  ∃ self', scans self texts = Ok self' ∧ end_ self' = end_ self.
Proof.
  induction texts as [|text texts IH]; intros self H; [by eexists|].
  inversion H as [|? ? Ht Hts]; subst.
  cbn [scans]. rewrite (search_no_match _ _ Ht). cbn [mbind res_bind].
  destruct (IH (set_funcs (Some []) self) Hts) as (self' & -> & Hen).
  by exists self'.
Qed.

(** X22. Unlike [start], [end] follows the scans: after any scans of any
    session, it is the end offset of the last record of the last text that
    has a record. *)
Theorem scans_end_last (self self0 : Docsync) (texts1 texts2 : list str)
    (text : str) (n : nat) (fs : list Func) (f : Func) :
  search init text = Ok (self0, n) →
  funcs self0 = Some fs → last fs = Some f →
  Forall (λ t, ∃ s, search init t = Ok (s, 0)) texts2 →
  ∃ self', scans self (texts1 ++ text :: texts2) = Ok self' ∧
           end_ self' = Some (snd (span f)).
Proof.
  intros Hs Hfs Hl H2.
  destruct (scans_total texts1 self) as [self1 H1].
  rewrite (scans_app _ (text :: texts2) _ _ H1). cbn [scans].
  rewrite search_spec in Hs |- *. cbn [mbind res_bind].
  injection Hs as <- _. cbn [funcs] in Hfs. injection Hfs as <-.
  edestruct scans_no_record_end as (self' & Hsc & Hen).
  { eapply Forall_impl; [exact H2|]. intros t [s Ht].
    rewrite search_spec in Ht. injection Ht as _ Hlen.
    by destruct (finditer func_re t). }
  exists self'. split; [exact Hsc|]. rewrite Hen. cbn [end_].
  unfold end_after.
  rewrite fmap_last in Hl.
  destruct (last (finditer func_re text)) as [m|]; [|done].
  by injection Hl as <-.
Qed.

Lemma scans_end_last_witness :
  ∃ self', scans session_after_scan
             ([text_block_at_5] ++ header_one_block :: [header_no_block]) =
             Ok self' ∧
           end_ self' = Some 50.
Proof.
  destruct (search init header_one_block) as [[self0 n]|] eqn:Hs;
    [|vm_compute in Hs; discriminate].
  destruct (funcs self0) as [[|f [|]]|] eqn:Hfs;
    try (vm_compute in Hs; injection Hs as <- _; vm_compute in Hfs;
         discriminate).
  assert (snd (span f) = 50) as <-.
  { vm_compute in Hs. injection Hs as <- _. vm_compute in Hfs.
    by injection Hfs as <-. }
  apply (scans_end_last session_after_scan self0 [text_block_at_5]
           [header_no_block] header_one_block n [f] f); [done|done|done|].
  constructor; [|constructor]. eexists. vm_compute. reflexivity.
Defined.

(** * The line index, read on the text *)

Section Lines.

Implicit Types (text s l : str) (ls : list str).

(** The offsets of the lines are the offsets that begin a line. *)
Lemma line_offset_begins text : ∀ k,
  (∃ i l, split newline text !! i = Some l ∧
          k = line_offset (split newline text) i) ↔
  begins_line text k.
Proof.
  induction text as [|c s IH]; intros k.
  - split.
    + intros ([|i] & l & Hi & ->); [by left|done].
    + intros [->|(j & _ & Hj)]; [|done]. by exists 0, [].
  - rewrite split_cons.
    pose proof (split_not_nil newline s) as Hne.
    destruct (split newline s) as [|l0 ls] eqn:Hs; [done|].
    destruct (Ascii.eqb c newline) eqn:Hc.
    + apply Ascii.eqb_eq in Hc as ->. split.
      * intros ([|i] & l & Hi & ->); [by left|]. right.
        rewrite line_offset_cons. simpl in Hi.
        destruct (proj1 (IH (line_offset (l0 :: ls) i))) as [H0|(j & Hj & Hl)];
          [by exists i, l| |].
        -- exists 0. by rewrite H0.
        -- exists (S j). by rewrite Hj.
      * intros [->|(j & -> & Hj)]; [by exists 0, []|].
        destruct j as [|j].
        -- exists 1, l0. by rewrite line_offset_cons, line_offset_0.
        -- simpl in Hj.
           destruct (proj2 (IH (S j))) as (i & l & Hi & Hk);
             [right; by exists j|].
           exists (S i), l. rewrite line_offset_cons, <- Hk. by split.
    + apply Ascii.eqb_neq in Hc. split.
      * intros ([|i] & l & Hi & ->); [by left|]. right.
        rewrite line_offset_cons. simpl in Hi.
        destruct (proj1 (IH (line_offset (l0 :: ls) (S i))))
          as [H0|(j & Hj & Hl)]; [by exists (S i), l| |].
        -- rewrite line_offset_cons in H0. lia.
        -- exists (S j). rewrite line_offset_cons in Hj. cbn [length].
           split; [lia|done].
      * intros [->|(j & -> & Hj)]; [by exists 0, (c :: l0)|].
        destruct j as [|j]; [simpl in Hj; congruence|]. simpl in Hj.
        destruct (proj2 (IH (S j))) as ([|i] & l & Hi & Hk);
          [right; by exists j|by rewrite line_offset_0 in Hk|].
        exists (S i), l. simpl in Hi. split; [done|].
        rewrite line_offset_cons in Hk |- *. cbn [length]. lia.
Qed.

Lemma breaks_before_0 text : breaks_before text 0 = 0.
Proof. done. Qed.

Lemma breaks_before_S c text k :
  breaks_before (c :: text) (S k) =
    (if Ascii.eqb c newline then 1 else 0) + breaks_before text k.
Proof.
  unfold breaks_before. cbn [take count_occ].
  destruct (Ascii.ascii_dec c newline) as [->|Hn].
  - by rewrite Ascii.eqb_refl.
  - apply Ascii.eqb_neq in Hn. by rewrite Hn.
Qed.

(** The number of a line is the number of line breaks before it. *)
Lemma breaks_before_line text : ∀ i l,
  split newline text !! i = Some l →
  breaks_before text (line_offset (split newline text) i) = i.
Proof.
  induction text as [|c s IH]; intros i l Hi.
  - by destruct i.
  - rewrite split_cons in Hi |- *.
    pose proof (split_not_nil newline s) as Hne.
    destruct (split newline s) as [|l0 ls] eqn:Hs; [done|].
    destruct i as [|i]; [by destruct (Ascii.eqb c newline)|].
    destruct (Ascii.eqb c newline) eqn:Hc; simpl in Hi.
    + rewrite line_offset_cons. cbn [length].
      replace (0 + 1 + line_offset (l0 :: ls) i)
        with (S (line_offset (l0 :: ls) i)) by lia.
      rewrite breaks_before_S, Hc, (IH i l Hi). lia.
    + rewrite line_offset_cons. cbn [length].
      replace (S (length l0) + 1 + line_offset ls i)
        with (S (line_offset (l0 :: ls) (S i)))
        by (rewrite line_offset_cons; lia).
      rewrite breaks_before_S, Hc, (IH (S i) l Hi). lia.
Qed.

(** No line contains a line break. *)
Lemma split_no_sep sep s : Forall (λ l, sep ∉ l) (split sep s).
Proof.
  induction s as [|c s IH]; simpl.
  - constructor; [|done]. apply not_elem_of_nil.
  - destruct (Ascii.eqb c sep) eqn:Hc.
    + constructor; [apply not_elem_of_nil|done].
    + apply Ascii.eqb_neq in Hc.
      destruct (split sep s) as [|l ls]; inversion IH; subst.
      * constructor; [|done]. intros H. apply list_elem_of_singleton in H.
        congruence.
      * constructor; [|done]. intros H.
        apply elem_of_cons in H as [H|H]; [congruence|done].
Qed.

(** A lookup in the index, with its default, read on the text. *)
Lemma get_line_begins text k :
  begins_line text k → get_line (_index_str text) k = breaks_before text k.
Proof.
  intros H. apply line_offset_begins in H as (i & l & Hi & ->).
  unfold get_line. rewrite (index_str_lookup _ _ _ Hi).
  by rewrite (breaks_before_line _ _ _ Hi).
Qed.

Lemma get_line_other text k :
  ¬ begins_line text k → get_line (_index_str text) k = 0.
Proof.
  intros H. unfold get_line.
  destruct (_index_str text !! k) as [[n l]|] eqn:Hk; [|done].
  destruct H. apply index_str_keys in Hk as (i & l' & Hi & -> & _).
  apply line_offset_begins. by exists i, l'.
Qed.

End Lines.

(** X10. The keys of the line index are the offsets that begin a line:
    offset 0, and every offset that comes directly after a line break. *)
Theorem index_str_key_iff (text : str) (k : nat) :
  is_Some (_index_str text !! k) ↔
  k = 0 ∨ ∃ j, k = S j ∧ text !! j = Some newline.
Proof.
  change (is_Some (_index_str text !! k) ↔ begins_line text k).
  rewrite <- line_offset_begins. split.
  - intros [v Hv]. apply index_str_keys in Hv as (i & l & Hi & -> & _).
    by exists i, l.
  - intros (i & l & Hi & ->). rewrite (index_str_lookup _ _ _ Hi). by eexists.
Qed.

(** X11. The entry at a key holds the number of line breaks before that
    offset, and a line that has no line break in it. *)
Theorem index_str_line_number (text : str) (k n : nat) (l : str) :
  _index_str text !! k = Some (n, l) →
  n = breaks_before text k ∧ newline ∉ l.
Proof.
  intros Hk. apply index_str_keys in Hk as (i & l' & Hi & -> & [= -> ->]).
  split; [by rewrite (breaks_before_line _ _ _ Hi)|].
  pose proof (split_no_sep newline text) as H.
  rewrite Forall_lookup in H. by apply (H i).
Qed.

Lemma index_str_line_number_witness :
  2 = breaks_before header_one_block 10 ∧
  newline ∉ lit "/** [docexport f] *//** doc".
Proof.
  apply (index_str_line_number header_one_block 10 2).
  vm_compute. reflexivity.
Defined.

(** * The range returned by [search_hdr], read on the text *)

Section Range.

Implicit Types (text s l : str) (self : Docsync).

Lemma breaks_before_mono text : ∀ j k,
  j ≤ k → breaks_before text j ≤ breaks_before text k.
Proof.
  induction text as [|c s IH]; intros j k Hjk.
  - unfold breaks_before. by rewrite !take_nil.
  - destruct j as [|j]; [rewrite breaks_before_0; lia|].
    destruct k as [|k]; [lia|]. rewrite !breaks_before_S.
    specialize (IH j k). lia.
Qed.

Lemma breaks_before_break text : ∀ j,
  text !! j = Some newline →
  breaks_before text (S j) = breaks_before text j + 1.
Proof.
  induction text as [|c s IH]; intros j Hj; [done|].
  destruct j as [|j]; simpl in Hj.
  - injection Hj as ->.
    by rewrite breaks_before_S, !breaks_before_0, Ascii.eqb_refl.
  - rewrite !breaks_before_S, (IH j Hj). lia.
Qed.

Lemma begins_line_S text en :
  begins_line text (S en) ↔ text !! en = Some newline.
Proof.
  split.
  - intros [H|(j & [= ->] & Hj)]; [lia|done].
  - intros H. right. by exists en.
Qed.

Lemma line_offset_pos ls j : 0 < j → ls ≠ [] → 0 < line_offset ls j.
Proof.
  intros Hj Hne. destruct j as [|j]; [lia|]. destruct ls as [|l ls]; [done|].
  rewrite line_offset_cons. lia.
Qed.

(** The first [j] lines, joined, are the text before the line break that
    ends line [j - 1]. *)
Lemma take_join_lines sep ls : ∀ j,
  0 < j ≤ length ls →
  take (line_offset ls j - 1) (join [sep] ls) = join [sep] (take j ls).
Proof.
  induction ls as [|l ls IH]; intros j Hj; [simpl in Hj; lia|].
  destruct j as [|j]; [lia|]. rewrite line_offset_cons. cbn [take].
  destruct j as [|j].
  - rewrite line_offset_0, take_0.
    replace (length l + 1 + 0 - 1) with (length l) by lia.
    destruct ls; [by rewrite take_ge|].
    rewrite join_cons2. apply take_app_length.
  - destruct ls as [|l' ls]; [simpl in Hj; lia|].
    pose proof (line_offset_pos (l' :: ls) (S j) ltac:(lia) ltac:(done)).
    cbn [length] in Hj. specialize (IH (S j) ltac:(cbn [length]; lia)).
    cbn [take] in *. rewrite !join_cons2.
    replace (length l + 1 + line_offset (l' :: ls) (S j) - 1)
      with (length l + S (line_offset (l' :: ls) (S j) - 1)) by lia.
    rewrite take_app_add'; [|done]. cbn [app take]. by rewrite IH.
Qed.

(** The lines from [i] up to [j], joined, are the text from the offset of
    line [i] to the line break that ends line [j - 1]. *)
Lemma slice_join_lines sep ls : ∀ i j,
  i < j ≤ length ls →
  slice (join [sep] ls) (line_offset ls i) (line_offset ls j - 1) =
    join [sep] (take (j - i) (drop i ls)).
Proof.
  induction ls as [|l ls IH]; intros i j Hij; [simpl in Hij; lia|].
  destruct i as [|i].
  - unfold slice. rewrite line_offset_0, drop_0, !Nat.sub_0_r.
    by apply take_join_lines.
  - destruct j as [|j]; [lia|].
    destruct ls as [|l' ls]; [simpl in Hij; lia|].
    cbn [length] in Hij. specialize (IH i j ltac:(cbn [length]; lia)).
    pose proof (line_offset_pos (l' :: ls) j ltac:(lia) ltac:(done)).
    rewrite !line_offset_cons, join_cons2. cbn [drop Nat.sub].
    rewrite <- IH. unfold slice.
    replace (length l + 1 + line_offset (l' :: ls) j - 1 -
             (length l + 1 + line_offset (l' :: ls) i))
      with (line_offset (l' :: ls) j - 1 - line_offset (l' :: ls) i) by lia.
    f_equal. rewrite <- drop_drop.
    replace (length l + 1) with (length (l ++ [sep]))
      by (rewrite length_app; simpl; lia).
    replace (l ++ [sep] ++ join [sep] (l' :: ls))
      with ((l ++ [sep]) ++ join [sep] (l' :: ls)) by (by rewrite <- app_assoc).
    by rewrite drop_app_length.
Qed.

(** An offset that begins a line is the offset of the line whose number
    is the number of line breaks before it. *)
Lemma begins_line_offset text k :
  begins_line text k →
  breaks_before text k < length (split newline text) ∧
  k = line_offset (split newline text) (breaks_before text k).
Proof.
  intros H. apply line_offset_begins in H as (i & l & Hi & ->).
  rewrite (breaks_before_line _ _ _ Hi). split; [|done].
  by apply lookup_lt_Some in Hi.
Qed.

(** [search_hdr] after a scan that found the matches [ms]. *)
Lemma search_hdr_found self text st en :
  finditer func_re text ≠ [] →
  start_after self (finditer func_re text) = Some st →
  end_after self (finditer func_re text) = Some en →
  search_hdr self text =
    Ok (mkDocsync (Some st) (Some en)
          (Some (map (to_func text) (finditer func_re text))),
        (Z.of_nat (get_line (_index_str text) st),
         Z.of_nat (get_line (_index_str text) (en + 1)))).
Proof.
  intros Hne Hst Hen. unfold search_hdr. rewrite search_spec.
  cbn [mbind res_bind mret res_ret]. rewrite Hst, Hen. cbn [start end_].
  destruct (finditer func_re text); [done|]. reflexivity.
Qed.

(** The first record of a scan has a line break between its start and its
    end, and ends no later than the last record. *)
Lemma first_record_break text m ms :
  finditer func_re text = m :: ms →
  ∃ j en, m_start m ≤ j < en ∧ text !! j = Some newline ∧
          end_after init (m :: ms) = Some en.
Proof.
  intros Hms.
  assert (to_func text m ∈ map (to_func text) (finditer func_re text)) as Hin
    by (rewrite Hms; left).
  apply record_shape in Hin
    as (hd & args & semi & Hsub & Hsl & Hend & Hle & Hhd & _).
  apply before_name_shape in Hhd
    as (stars & ws & tag & rest & r1 & r2 & Hhd & _ & _ & _ & _ & _ & Hnl & _).
  cbn [to_func substring span fst snd] in *.
  assert (newline ∈ hd) as Hin.
  { rewrite Hhd, Hnl. right. rewrite !elem_of_app. right. right. right.
    rewrite !elem_of_app. right. right. right. by left. }
  apply list_elem_of_lookup in Hin as [j Hj].
  pose proof (lookup_lt_Some _ _ _ Hj) as Hjlt.
  assert (text !! (m_start m + j) = Some newline) as Hnlj.
  { assert (group0 text m !! j = Some newline) as H
      by (by rewrite Hsub, lookup_app_l).
    rewrite Hsl in H. unfold slice in H.
    apply lookup_take_Some in H as [H _]. by rewrite lookup_drop in H. }
  assert (m_start m + j < m_end m) as Hlt.
  { rewrite Hend, Hsub, !length_app. lia. }
  pose proof (finditer_blocks_0 text) as Hb. rewrite Hms in Hb.
  destruct (last_is_Some (m :: ms)) as [_ [ml Hl]]; [done|].
  exists (m_start m + j), (m_end ml). unfold end_after. rewrite Hl.
  split; [|done]. split; [lia|].
  destruct ms as [|m' ms'].
  - injection Hl as <-. lia.
  - rewrite last_lookup in Hl. cbn [length pred] in Hl.
    pose proof (blocks_from_ordered _ _ _ Hb 0 (length (m' :: ms'))
                  (to_func text m) (to_func text ml)) as Hord.
    cbn [to_func span fst snd] in Hord.
    assert (m_end m ≤ m_start ml) as Hle'.
    { apply Hord; [simpl; lia|done|].
      rewrite list_lookup_fmap. cbn [length] in *. by rewrite Hl. }
    destruct (blocks_from_lookup _ _ _ Hb (length (m' :: ms'))
                (to_func text ml)) as (_ & (? & ? & [Hlt' _] & _) & _).
    { rewrite list_lookup_fmap. cbn [length] in *. by rewrite Hl. }
    cbn [to_func span fst snd] in Hlt'. lia.
Qed.

End Range.

(** X12. When the scan of the header finds a record, the start line that
    [search_hdr] returns is the number of line breaks before the recorded
    start offset if that offset begins a line, and 0 otherwise; the end
    line is the number of line breaks up to and including the character at
    the recorded end offset if that character is a line break, and 0
    otherwise. *)
Theorem search_hdr_lines (self s : Docsync) (text : str) (n : nat) :
  search self text = Ok (s, n) → n ≠ 0 →
  ∃ st en a b,
    search_hdr self text = Ok (s, (a, b)) ∧
    start s = Some st ∧ end_ s = Some en ∧
    (begins_line text st → a = Z.of_nat (breaks_before text st)) ∧
    (¬ begins_line text st → a = 0%Z) ∧
    (text !! en = Some newline → b = Z.of_nat (breaks_before text (S en))) ∧
    (text !! en ≠ Some newline → b = 0%Z).
Proof.
  rewrite search_spec. intros [= <- <-] Hn.
  assert (finditer func_re text ≠ []) as Hne
    by (intros H; by rewrite H in Hn).
  destruct (start_after_is_Some self _ Hne) as [st Hst].
  destruct (end_after_is_Some self _ Hne) as [en Hen].
  exists st, en. eexists _, _.
  split; [rewrite Hst, Hen; by apply search_hdr_found|]. cbn [start end_].
  split; [done|]. split; [done|]. rewrite Nat.add_1_r. repeat split.
  - intros H. by rewrite get_line_begins.
  - intros H. by rewrite get_line_other.
  - intros H. rewrite get_line_begins; [done|]. by apply begins_line_S.
  - intros H. rewrite get_line_other; [done|]. by rewrite begins_line_S.
Qed.

Lemma search_hdr_lines_witness :
  ∃ st en a b,
    search_hdr init header_one_block = Ok (session_exported, (a, b)) ∧
    start session_exported = Some st ∧ end_ session_exported = Some en ∧
    (begins_line header_one_block st →
     a = Z.of_nat (breaks_before header_one_block st)) ∧
    (¬ begins_line header_one_block st → a = 0%Z) ∧
    (header_one_block !! en = Some newline →
     b = Z.of_nat (breaks_before header_one_block (S en))) ∧
    (header_one_block !! en ≠ Some newline → b = 0%Z).
Proof.
  apply (search_hdr_lines init session_exported header_one_block 1).
  - vm_compute. reflexivity.
  - lia.
Defined.

(** X13. In a session whose [start] was unset, when the header has a
    record, the recorded start offset is before the recorded end offset;
    and if the start offset begins a line and the character at the end
    offset is a line break, the range returned spans at least two lines,
    and the lines of this range, joined, are the text from the start offset
    to the end offset: the records and what lies between them. *)
Theorem search_hdr_range (self s : Docsync) (text : str) (n : nat) :
  start self = None →
  search self text = Ok (s, n) → n ≠ 0 →
  ∃ st en a b,
    search_hdr self text = Ok (s, (Z.of_nat a, Z.of_nat b)) ∧
    start s = Some st ∧ end_ s = Some en ∧ st < en ∧
    (begins_line text st → text !! en = Some newline →
     a + 2 ≤ b ∧
     join [newline] (take (b - a) (drop a (split newline text))) =
       slice text st en).
Proof.
  intros Hnone. rewrite search_spec. intros [= <- <-] Hn.
  destruct (finditer func_re text) as [|m ms] eqn:Hms; [done|].
  destruct (first_record_break _ _ _ Hms) as (j & en & Hj & Hnl & Hen).
  assert (end_after self (m :: ms) = Some en) as Hen'.
  { unfold end_after in *. by destruct (last (m :: ms)). }
  assert (start_after self (m :: ms) = Some (m_start m)) as Hst
    by (unfold start_after; by rewrite Hnone).
  pose proof (search_hdr_found self text (m_start m) en) as Hf.
  rewrite Hms in Hf. specialize (Hf ltac:(done) Hst Hen').
  exists (m_start m), en. eexists _, _.
  split; [rewrite Hst, Hen'; exact Hf|].
  cbn [start end_]. split; [done|]. split; [done|]. split; [lia|].
  intros Hb He. rewrite get_line_begins by done.
  rewrite Nat.add_1_r, get_line_begins by (by apply begins_line_S).
  pose proof (breaks_before_break _ _ He) as Hbe.
  pose proof (breaks_before_mono text (m_start m) j ltac:(lia)).
  pose proof (breaks_before_break _ _ Hnl).
  pose proof (breaks_before_mono text (S j) en ltac:(lia)).
  split; [lia|].
  destruct (begins_line_offset _ _ Hb) as [_ Ha].
  destruct (begins_line_offset text (S en)) as [Hlt Hb'];
    [by apply begins_line_S|].
  pose proof (slice_join_lines newline (split newline text)
                (breaks_before text (m_start m)) (breaks_before text (S en))
                ltac:(lia)) as Hsl.
  by rewrite join_split, <- Ha, <- Hb', Nat.sub_succ, Nat.sub_0_r in Hsl.
Qed.

Lemma search_hdr_range_witness :
  ∃ st en a b,
    search_hdr init header_one_block =
      Ok (session_exported, (Z.of_nat a, Z.of_nat b)) ∧
    start session_exported = Some st ∧ end_ session_exported = Some en ∧
    st < en ∧
    (begins_line header_one_block st →
     header_one_block !! en = Some newline →
     a + 2 ≤ b ∧
     join [newline] (take (b - a) (drop a (split newline header_one_block))) =
       slice header_one_block st en).
Proof.
  apply (search_hdr_range init session_exported header_one_block 1).
  - reflexivity.
  - vm_compute. reflexivity.
  - lia.
Defined.

(** X14. [search_hdr] leaves in the session the records of the header
    text, as a new session that scanned the header would hold them, so a
    [docexport] that follows exports the blocks of the header. *)
Theorem search_hdr_overwrites_records (self : Docsync) (text : str) :
  ∃ self' self0 r n,
    search_hdr self text = Ok (self', r) ∧
    search init text = Ok (self0, n) ∧
    funcs self' = funcs self0 ∧
    ∀ output_type, docexport self' output_type = docexport self0 output_type.
Proof.
  unfold search_hdr. rewrite !search_spec.
  cbn [mbind res_bind mret res_ret start end_].
  destruct (finditer func_re text) as [|m ms] eqn:Hms.
  - eexists _, _, _, _. repeat split.
  - destruct (end_after_is_Some self (m :: ms)) as [en Hen]; [done|].
    cbn [length Nat.eqb negb]. rewrite Hen.
    eexists _, _, _, _. repeat split.
Qed.

(** * What [replace] does to a block *)

Section Replace.

Implicit Types (s a b old new : str) (c : ascii).

Lemma startswith_app_l a b old :
  startswith a old = true → startswith (a ++ b) old = true.
Proof.
  revert a. induction old as [|o old IH]; intros a H; [done|].
  destruct a as [|x a]; [done|]. simpl in *.
  apply andb_true_iff in H as [-> H]. by apply IH.
Qed.

Lemma startswith_app_sep a c b old :
  c ∉ old → startswith (a ++ c :: b) old = true → startswith a old = true.
Proof.
  revert a. induction old as [|o old IH]; intros a Hc H; [done|].
  apply not_elem_of_cons in Hc as [Hco Hc].
  destruct a as [|x a]; simpl in *.
  - apply andb_true_iff in H as [H _]. apply Ascii.eqb_eq in H. congruence.
  - apply andb_true_iff in H as [-> H]. by apply IH.
Qed.

Lemma startswith_sep c b old :
  old ≠ [] → c ∉ old → startswith (c :: b) old = false.
Proof.
  intros Hne Hc. destruct (startswith (c :: b) old) eqn:H; [|done].
  apply (startswith_app_sep [] c b old Hc) in H. by destruct old.
Qed.

(** A character that is not in [old] cuts the string in two parts that
    are replaced independently. *)
Lemma replace_sep old new c b : ∀ n a,
  length a ≤ n → old ≠ [] → c ∉ old →
  replace (a ++ c :: b) old new = replace a old new ++ c :: replace b old new.
Proof.
  induction n as [|n IH]; intros a Hn Hne Hc.
  - destruct a; [|simpl in Hn; lia]. simpl.
    by rewrite replace_other by (by apply startswith_sep).
  - destruct a as [|x a].
    { simpl. by rewrite replace_other by (by apply startswith_sep). }
    destruct (startswith (x :: a) old) eqn:Hs.
    + pose proof (f_equal length (startswith_inv _ _ Hs)) as Ha.
      rewrite length_app in Ha.
      assert (length old ≤ length (x :: a)) as Hlen by lia.
      rewrite (replace_startswith (x :: a) _ _ Hne Hs).
      rewrite (replace_startswith ((x :: a) ++ c :: b) _ _ Hne)
        by (by apply startswith_app_l).
      rewrite drop_app_le by done. rewrite <- app_assoc. f_equal.
      apply IH; [|done|done]. rewrite length_drop. simpl in *.
      destruct old; [done|]. simpl. lia.
    + assert (startswith ((x :: a) ++ c :: b) old = false) as Hs'.
      { destruct (startswith ((x :: a) ++ c :: b) old) eqn:H; [|done].
        apply startswith_app_sep in H; [congruence|done]. }
      rewrite <- app_comm_cons in *.
      rewrite (replace_other _ _ _ _ Hs), (replace_other _ _ _ _ Hs').
      rewrite <- app_comm_cons. f_equal. apply IH; [simpl in Hn; lia|done|done].
Qed.

(** Characters that are not in [old] are copied. *)
Lemma replace_prefix old new a b :
  old ≠ [] → Forall (λ c, c ∉ old) a →
  replace (a ++ b) old new = a ++ replace b old new.
Proof.
  intros Hne Ha. induction Ha as [|c a Hc _ IH]; [done|].
  rewrite <- app_comm_cons.
  rewrite replace_other by (by apply startswith_sep). by rewrite IH.
Qed.

(** [replace] with a [new] as long as [old] keeps the length. *)
Lemma replace_length old new : ∀ n s,
  length s ≤ n → old ≠ [] → length new = length old →
  length (replace s old new) = length s.
Proof.
  induction n as [|n IH]; intros s Hn Hne Hlen.
  - by destruct s; [|simpl in Hn; lia].
  - destruct s as [|x s]; [done|].
    destruct (startswith (x :: s) old) eqn:Hs.
    + pose proof (f_equal length (startswith_inv _ _ Hs)) as Ha.
      rewrite length_app in Ha.
      rewrite (replace_startswith _ _ _ Hne Hs), length_app, IH; [| |done|done].
      * lia.
      * rewrite length_drop. simpl in *. destruct old; [done|]. simpl. lia.
    + rewrite (replace_other _ _ _ _ Hs). simpl. f_equal.
      apply IH; [simpl in Hn; lia|done|done].
Qed.

(** The two tags: [docimport] becomes [docexport], and [docexport] stays. *)
Lemma replace_tag tag rest :
  tag = lit "docimport" ∨ tag = lit "docexport" →
  replace (tag ++ rest) (lit "docimport") (lit "docexport") =
    lit "docexport" ++ replace rest (lit "docimport") (lit "docexport").
Proof.
  intros [-> | ->].
  - rewrite replace_startswith; [|done|by apply startswith_app].
    by rewrite drop_app_length.
  - reflexivity.
Qed.

(** After the replacement [docimport] does not occur. *)
Lemma startswith_replace_back p : ∀ s,
  "d"%char ∉ p →
  startswith (replace s (lit "docimport") (lit "docexport")) p = true →
  startswith s p = true.
Proof.
  induction p as [|c p IH]; intros s Hd H; [done|].
  apply not_elem_of_cons in Hd as [Hcd Hd].
  destruct s as [|x s]; [done|].
  destruct (startswith (x :: s) (lit "docimport")) eqn:Hs.
  - rewrite replace_startswith in H by done. simpl in H.
    apply andb_true_iff in H as [H _]. apply Ascii.eqb_eq in H. congruence.
  - rewrite (replace_other _ _ _ _ Hs) in H. simpl in *.
    apply andb_true_iff in H as [-> H]. by apply IH.
Qed.

Lemma contains_replace : ∀ n s,
  length s ≤ n →
  contains (replace s (lit "docimport") (lit "docexport")) (lit "docimport")
    = false.
Proof.
  induction n as [|n IH]; intros s Hn.
  - by destruct s; [|simpl in Hn; lia].
  - destruct s as [|x s]; [done|].
    destruct (startswith (x :: s) (lit "docimport")) eqn:Hs.
    + rewrite replace_startswith by done.
      specialize (IH (drop (length (lit "docimport")) (x :: s))).
      rewrite length_drop in IH. specialize (IH ltac:(simpl in *; lia)).
      simpl. simpl in IH. by rewrite IH.
    + rewrite (replace_other _ _ _ _ Hs).
      change (contains (x :: ?r) ?o) with (startswith (x :: r) o || contains r o).
      rewrite IH by (simpl in Hn; lia). rewrite orb_false_r.
      destruct (startswith (x :: replace s (lit "docimport") (lit "docexport"))
                  (lit "docimport")) eqn:H; [|done].
      simpl in H. apply andb_true_iff in H as [Hx H].
      apply (startswith_replace_back (lit "ocimport")) in H.
      * simpl in Hs. rewrite Hx in Hs. simpl in H. simpl in Hs. congruence.
      * intros Hin. vm_compute in Hin.
        repeat (apply elem_of_cons in Hin as [Hin|Hin]; [discriminate|]).
        by apply elem_of_nil in Hin.
Qed.

Lemma contains_nil old : old ≠ [] → contains [] old = false.
Proof. by destruct old. Qed.

Lemma contains_sep a c b old :
  c ∉ old → contains a old = false → contains b old = false →
  contains (a ++ c :: b) old = false.
Proof.
  intros Hc Ha Hb. induction a as [|x a IH].
  - assert (old ≠ []) as Hne by (intros ->; by destruct b).
    simpl. by rewrite startswith_sep, Hb.
  - rewrite <- app_comm_cons.
    change (contains (x :: ?r) ?o) with (startswith (x :: r) o || contains r o)
      in *.
    apply orb_false_iff in Ha as [Hs Ha]. rewrite (IH Ha), orb_false_r.
    destruct (startswith (x :: a ++ c :: b) old) eqn:H; [|done].
    rewrite app_comm_cons in H. apply startswith_app_sep in H; [|done].
    congruence.
Qed.

End Replace.

(** * The exported text *)

Section Exported.

Implicit Types (s l old : str) (ls : list str) (self : Docsync)
  (fs : list Func).

Lemma occurs_trans x l s : occurs x l → occurs l s → occurs x s.
Proof.
  intros (a & b & ->) (a' & b' & ->). exists (a' ++ a), (b ++ b').
  by rewrite <- !app_assoc.
Qed.

(** A piece of a split occurs in the string. *)
Lemma occurs_join sep ls l : l ∈ ls → occurs l (join [sep] ls).
Proof.
  induction ls as [|l0 ls IH]; intros Hin; [by apply elem_of_nil in Hin|].
  destruct ls as [|l1 ls].
  - apply list_elem_of_singleton in Hin as ->. exists [], []. simpl.
    by rewrite app_nil_r.
  - rewrite join_cons2. apply elem_of_cons in Hin as [->|Hin].
    + apply occurs_here.
    + apply occurs_app_l, occurs_app_l. by apply IH.
Qed.

Lemma contains_join old ls :
  old ≠ [] → newline ∉ old →
  Forall (λ b, contains b old = false) ls →
  contains (join [newline; newline] ls) old = false.
Proof.
  intros Hne Hnl H. induction H as [|b ls Hb Hls IH].
  - by apply contains_nil.
  - destruct ls as [|b' ls]; [done|]. rewrite join_cons2.
    apply (contains_sep b newline); [done|done|].
    apply (contains_sep [] newline); [done| |done].
    by apply contains_nil.
Qed.

Lemma length_join ls :
  length (join [newline; newline] ls) =
    sum_list (map length ls) + 2 * (length ls - 1).
Proof.
  induction ls as [|b ls IH]; [done|]. destruct ls as [|b' ls].
  - simpl. lia.
  - rewrite join_cons2, !length_app, IH. cbn [length map sum_list].
    unfold id. lia.
Qed.

(** The block exported for a record. *)
Lemma exported_lookup fs :
  Forall2 (λ f b, b = replace (substring f) (lit "docimport") (lit "docexport")
                      ++ lit ";") fs (exported fs).
Proof.
  unfold exported. apply Forall2_fmap_r, Forall_Forall2_diag.
  by apply Forall_forall.
Qed.

Lemma space_not_in_tag c : is_space c = true → c ∉ lit "docimport".
Proof.
  intros H Hin. vm_compute in Hin.
  repeat (apply elem_of_cons in Hin as [->|Hin]; [vm_compute in H; discriminate|]).
  by apply elem_of_nil in Hin.
Qed.

End Exported.

(** X15. In a session that has scanned, [docexport] for ["lines"] returns
    a list that is never empty and whose lines have no line break; without
    records it is the list with one empty line, and the joined string is
    empty. *)
Theorem docexport_lines (self : Docsync) (fs : list Func) :
  funcs self = Some fs →
  ∃ ls joined,
    docexport self (lit "lines") = Ok (OutLines ls) ∧
    docexport self (lit "joined") = Ok (OutStr joined) ∧
    ls ≠ [] ∧ Forall (λ l, newline ∉ l) ls ∧
    (fs = [] → ls = [[]] ∧ joined = []).
Proof.
  intros Hfs. rewrite !(docexport_spec _ _ _ Hfs).
  destruct (decide (lit "lines" = lit "lines")) as [_|Hn]; [|done].
  destruct (decide (lit "joined" = lit "lines")) as [He|_]; [done|].
  eexists _, _. split; [done|]. split; [done|].
  split; [apply split_not_nil|]. split; [apply split_no_sep|].
  by intros ->.
Qed.

Lemma docexport_lines_witness :
  ∃ ls joined,
    docexport (set_funcs (Some []) init) (lit "lines") = Ok (OutLines ls) ∧
    docexport (set_funcs (Some []) init) (lit "joined") = Ok (OutStr joined) ∧
    ls ≠ [] ∧ Forall (λ l, newline ∉ l) ls ∧
    (@nil Func = [] → ls = [[]] ∧ joined = []).
Proof.
  apply (docexport_lines (set_funcs (Some []) init) []). reflexivity.
Defined.

(** X16. Whatever the records are, [docimport] does not occur in the
    exported text: not in the joined string, and in none of the lines. *)
Theorem docexport_no_docimport (self : Docsync) (fs : list Func)
    (output_type : str) :
  funcs self = Some fs →
  ∃ o, docexport self output_type = Ok o ∧
       match o with
       | OutStr joined => ¬ occurs (lit "docimport") joined
       | OutLines ls => Forall (λ l, ¬ occurs (lit "docimport") l) ls
       end.
Proof.
  intros Hfs. rewrite (docexport_spec _ _ _ Hfs). eexists. split; [done|].
  assert (¬ occurs (lit "docimport") (join [newline; newline] (exported fs)))
    as Hno.
  { intros H. apply occurs_contains in H. rewrite contains_join in H; try done.
    - not_in_lit.
    - unfold exported. apply Forall_fmap, Forall_forall. intros f _.
      cbn beta. change (lit ";") with ([] ++ ";"%char :: []).
      apply contains_sep; [not_in_lit| |done].
      by apply (contains_replace (length (substring f))). }
  destruct (decide (output_type = lit "lines")); [|done].
  apply Forall_forall. intros l Hl Hocc. apply Hno.
  apply (occurs_trans _ l); [done|].
  pose proof (occurs_join newline _ _ Hl) as H. by rewrite join_split in H.
Qed.

Lemma docexport_no_docimport_witness :
  ∃ o, docexport session_after_scan (lit "joined") = Ok o ∧
       match o with
       | OutStr joined => ¬ occurs (lit "docimport") joined
       | OutLines ls => Forall (λ l, ¬ occurs (lit "docimport") l) ls
       end.
Proof.
  apply (docexport_no_docimport session_after_scan
           (default [] (funcs session_after_scan)) (lit "joined")).
  vm_compute. reflexivity.
Defined.

(** X17. The string returned for ["joined"] has one character more than
    each record's substring, and two more for each blank line between two
    blocks. *)
Theorem docexport_joined_length (self : Docsync) (fs : list Func) :
  funcs self = Some fs →
  ∃ joined,
    docexport self (lit "joined") = Ok (OutStr joined) ∧
    length joined =
      sum_list (map (λ f, length (substring f) + 1) fs) + 2 * (length fs - 1).
Proof.
  intros Hfs. rewrite (docexport_spec _ _ _ Hfs).
  destruct (decide (lit "joined" = lit "lines")) as [He|_]; [done|].
  eexists. split; [done|]. rewrite length_join. unfold exported.
  rewrite length_map, map_map. f_equal. f_equal. apply map_ext. intros f.
  rewrite length_app. by rewrite (replace_length _ _ (length (substring f))).
Qed.

Lemma docexport_joined_length_witness :
  ∃ joined,
    docexport session_after_scan (lit "joined") = Ok (OutStr joined) ∧
    length joined = 40.
Proof.
  destruct (docexport_joined_length session_after_scan
              (default [] (funcs session_after_scan))) as (joined & H & Hlen);
    [vm_compute; reflexivity|].
  exists joined. split; [done|]. rewrite Hlen. vm_compute. reflexivity.
Defined.

(** X18. After a scan, every exported block begins like the record it
    comes from, with [/], the same [*] and whitespace, and then the tag
    [[docexport], whichever of the two tags the record has. *)
Theorem docexport_opening (self s : Docsync) (text : str) (n : nat) :
  search self text = Ok (s, n) →
  ∃ fs out,
    funcs s = Some fs ∧
    docexport s (lit "joined") = Ok (OutStr (join [newline; newline] out)) ∧
    Forall2 (λ f b,
      ∃ stars ws rest rest',
        stars ≠ [] ∧ Forall (λ a, a = "*"%char) stars ∧
        ws ≠ [] ∧ Forall (λ a, is_space a = true) ws ∧
        substring f = "/"%char :: stars ++ ws ++ "["%char :: rest ∧
        b = "/"%char :: stars ++ ws ++ lit "[docexport" ++ rest') fs out.
Proof.
  rewrite search_spec. intros [= <- <-].
  exists (map (to_func text) (finditer func_re text)), (exported (map (to_func text) (finditer func_re text))).
  split; [done|]. erewrite docexport_spec by done.
  destruct (decide (lit "joined" = lit "lines")) as [He|_]; [done|].
  split; [done|].
  unfold exported. apply Forall2_fmap_r, Forall_Forall2_diag, Forall_forall.
  intros f Hf.
  apply record_shape in Hf
    as (hd & args & semi & Hsub & _ & _ & _ & Hhd & _).
  apply before_name_shape in Hhd
    as (stars & ws & tag & rest & r1 & r2 & Hhd & Hs1 & Hs2 & Hw1 & Hw2 & Htag &
        _).
  set (tl := name f ++ "("%char :: args ++ ")"%char :: semi) in *.
  exists stars, ws, (tag ++ rest ++ tl),
    (replace (rest ++ tl) (lit "docimport") (lit "docexport") ++ lit ";").
  assert (substring f =
          ("/"%char :: stars ++ ws ++ ["["%char]) ++ tag ++ rest ++ tl) as Hsub'.
  { rewrite Hsub, Hhd.
    by repeat first [rewrite <- app_assoc | rewrite <- app_comm_cons]. }
  repeat split; try done.
  - rewrite Hsub'.
    by repeat first [rewrite <- app_assoc | rewrite <- app_comm_cons].
  - rewrite Hsub', replace_prefix, replace_tag; [|done|done|].
    + by repeat first [rewrite <- app_assoc | rewrite <- app_comm_cons].
    + constructor; [not_in_lit|]. rewrite !Forall_app. repeat split.
      * eapply Forall_impl; [exact Hs2|]. intros a ->. not_in_lit.
      * eapply Forall_impl; [exact Hw2|]. intros a. apply space_not_in_tag.
      * constructor; [not_in_lit|done].
Qed.

Lemma docexport_opening_witness :
  ∃ fs out,
    funcs session_after_scan = Some fs ∧
    docexport session_after_scan (lit "joined") =
      Ok (OutStr (join [newline; newline] out)) ∧
    Forall2 (λ f b,
      ∃ stars ws rest rest',
        stars ≠ [] ∧ Forall (λ a, a = "*"%char) stars ∧
        ws ≠ [] ∧ Forall (λ a, is_space a = true) ws ∧
        substring f = "/"%char :: stars ++ ws ++ "["%char :: rest ∧
        b = "/"%char :: stars ++ ws ++ lit "[docexport" ++ rest') fs out.
Proof.
  apply (docexport_opening init session_after_scan text_block_at_0 1).
  vm_compute. reflexivity.
Defined.

(** X19. [docexport] appends [;] to a record that may end with [;]
    already: the exported block ends with [);;] when the record ends with
    [;], and with [);] when the record ends with [)], in which case the
    signature is not followed by [;] in the text. *)
Theorem docexport_semicolon (self s : Docsync) (text : str) (n : nat) :
  search self text = Ok (s, n) →
  ∃ fs out,
    funcs s = Some fs ∧
    docexport s (lit "joined") = Ok (OutStr (join [newline; newline] out)) ∧
    Forall2 (λ f b,
      ∃ body,
        (last (substring f) = Some ")"%char ∧
         text !! snd (span f) ≠ Some ";"%char ∧ b = body ++ lit ");") ∨
        (last (substring f) = Some ";"%char ∧ b = body ++ lit ");;")) fs out.
Proof.
  rewrite search_spec. intros [= <- <-].
  exists (map (to_func text) (finditer func_re text)), (exported (map (to_func text) (finditer func_re text))).
  split; [done|]. erewrite docexport_spec by done.
  destruct (decide (lit "joined" = lit "lines")) as [He|_]; [done|].
  split; [done|].
  unfold exported. apply Forall2_fmap_r, Forall_Forall2_diag, Forall_forall.
  intros f Hf.
  apply record_shape in Hf
    as (hd & args & semi & Hsub & _ & _ & _ & _ & _ & _ & _ & Hsemi & _).
  assert (substring f = (hd ++ name f ++ "("%char :: args) ++ ")"%char :: semi)
    as Hsub'.
  { rewrite Hsub.
    by repeat first [rewrite <- app_assoc | rewrite <- app_comm_cons]. }
  exists (replace (hd ++ name f ++ "("%char :: args)
            (lit "docimport") (lit "docexport")).
  rewrite Hsub',
    (replace_sep _ _ _ _ (length (hd ++ name f ++ "("%char :: args)));
    [|done|done|not_in_lit].
  destruct Hsemi as [[-> Hnext]| ->]; [left|right].
  - split; [apply last_snoc|]. split; [done|]. by rewrite <- app_assoc.
  - split.
    + replace ((hd ++ name f ++ "("%char :: args) ++ [")"%char; ";"%char])
        with (((hd ++ name f ++ "("%char :: args) ++ [")"%char]) ++ [";"%char])
        by (by rewrite <- !app_assoc).
      apply last_snoc.
    + by rewrite <- app_assoc.
Qed.

Lemma docexport_semicolon_witness :
  ∃ fs out,
    funcs session_exported = Some fs ∧
    docexport session_exported (lit "joined") =
      Ok (OutStr (join [newline; newline] out)) ∧
    Forall2 (λ f b,
      ∃ body,
        (last (substring f) = Some ")"%char ∧
         header_one_block !! snd (span f) ≠ Some ";"%char ∧
         b = body ++ lit ");") ∨
        (last (substring f) = Some ";"%char ∧ b = body ++ lit ");;")) fs out.
Proof.
  apply (docexport_semicolon init session_exported header_one_block 1).
  vm_compute. reflexivity.
Defined.

(** * The exported lines *)

Section ExportedLines.

Implicit Types (s a b l old new : str) (ls : list str) (sep c : ascii)
  (self : Docsync).

(** Splitting at a separator splits the two sides. *)
Lemma split_app_sep sep a b :
  split sep (a ++ sep :: b) = split sep a ++ split sep b.
Proof.
  induction a as [|c a IH].
  - simpl. by rewrite Ascii.eqb_refl.
  - rewrite <- app_comm_cons, !split_cons, IH.
    destruct (Ascii.eqb c sep); [done|].
    pose proof (split_not_nil sep a). by destruct (split sep a).
Qed.

Lemma split_no_sep_id sep s : sep ∉ s → split sep s = [s].
Proof.
  induction s as [|c s IH]; intros H; [done|].
  apply not_elem_of_cons in H as [Hc H]. rewrite split_cons, (IH H).
  destruct (Ascii.eqb c sep) eqn:He; [|done].
  apply Ascii.eqb_eq in He. congruence.
Qed.

(** [replace] brings in no character that is not in [new]. *)
Lemma replace_elem c old new : ∀ n s,
  length s ≤ n → old ≠ [] →
  c ∈ replace s old new → c ∈ s ∨ c ∈ new.
Proof.
  induction n as [|n IH]; intros s Hn Hne Hin.
  - destruct s; [by left|simpl in Hn; lia].
  - destruct s as [|x s]; [by left|].
    destruct (startswith (x :: s) old) eqn:Hs.
    + rewrite (replace_startswith _ _ _ Hne Hs) in Hin.
      apply elem_of_app in Hin as [Hin|Hin]; [by right|].
      apply IH in Hin as [Hin|Hin]; [|by right|..|done].
      * left. rewrite <- (take_drop (length old) (x :: s)).
        apply elem_of_app. by right.
      * rewrite length_drop. simpl in *. destruct old; [done|]. simpl. lia.
    + rewrite (replace_other _ _ _ _ Hs) in Hin.
      apply elem_of_cons in Hin as [->|Hin]; [left; by left|].
      apply IH in Hin as [Hin|Hin]; [left; by right|by right| |done].
      simpl in Hn. lia.
Qed.

(** [replace] with an [old] and a [new] without line break works line by
    line. *)
Lemma replace_split old new :
  old ≠ [] → newline ∉ old → newline ∉ new → ∀ n s,
  length s ≤ n →
  split newline (replace s old new) =
    map (λ l, replace l old new) (split newline s).
Proof.
  intros Hne Hold Hnew. induction n as [|n IH]; intros s Hn.
  - by destruct s; [|simpl in Hn; lia].
  - destruct (decide (newline ∈ s)) as [Hin|Hnot].
    + apply list_elem_of_split_l in Hin as (a & b & -> & Ha).
      rewrite length_app in Hn. simpl in Hn.
      rewrite (replace_sep _ _ _ _ (length a)), !split_app_sep by done.
      rewrite map_app, (IH b) by lia. f_equal.
      rewrite !split_no_sep_id; [done|done|].
      intros Hin. apply (replace_elem _ _ _ (length a)) in Hin as [?|?]; done.
    + rewrite !split_no_sep_id; [done|done|].
      intros Hin. apply (replace_elem _ _ _ (length s)) in Hin as [?|?]; done.
Qed.

End ExportedLines.

(** X20. The lines of an exported block are the lines of the record's
    substring, each with [docimport] replaced by [docexport], and with [;]
    appended to the last. *)
Theorem docexport_block_lines (self : Docsync) (fs : list Func) :
  funcs self = Some fs →
  ∃ out,
    docexport self (lit "joined") = Ok (OutStr (join [newline; newline] out)) ∧
    Forall2 (λ f b,
      ∃ ls l,
        split newline (substring f) = ls ++ [l] ∧
        split newline b =
          map (λ l, replace l (lit "docimport") (lit "docexport")) ls ++
          [replace l (lit "docimport") (lit "docexport") ++ lit ";"]) fs out.
Proof.
  intros Hfs. exists (exported fs). rewrite (docexport_spec _ _ _ Hfs).
  destruct (decide (lit "joined" = lit "lines")) as [He|_]; [done|].
  split; [done|].
  unfold exported. apply Forall2_fmap_r, Forall_Forall2_diag, Forall_forall.
  intros f _. change (lit ";") with [";"%char].
  destruct (split_snoc newline
              (replace (substring f) (lit "docimport") (lit "docexport"))
              ";"%char) as (ls & l & Hs & Hsc).
  change (Ascii.eqb ";" newline) with false in Hsc. cbv iota in Hsc.
  unfold compose. rewrite Hsc.
  rewrite (replace_split (lit "docimport") (lit "docexport"))
    with (n := length (substring f)) in Hs; [|done|not_in_lit|not_in_lit|done].
  pose proof (split_not_nil newline (substring f)) as Hne.
  destruct (split newline (substring f)) as [|l0 ls0 _] using rev_ind; [done|].
  rewrite map_app in Hs. apply app_inj_tail in Hs as [<- <-].
  by exists ls0, l0.
Qed.

Lemma docexport_block_lines_witness :
  ∃ out,
    docexport session_after_scan (lit "joined") =
      Ok (OutStr (join [newline; newline] out)) ∧
    Forall2 (λ f b,
      ∃ ls l,
        split newline (substring f) = ls ++ [l] ∧
        split newline b =
          map (λ l, replace l (lit "docimport") (lit "docexport")) ls ++
          [replace l (lit "docimport") (lit "docexport") ++ lit ";"])
      (default [] (funcs session_after_scan)) out.
Proof.
  apply (docexport_block_lines session_after_scan
           (default [] (funcs session_after_scan))).
  vm_compute. reflexivity.
Defined.

(** X21. With more than one record, the lines returned are the lines of
    the first exported block, one empty line, and the lines returned for
    the other records. *)
Theorem docexport_lines_cons (self self' : Docsync) (f : Func)
    (fs : list Func) :
  funcs self = Some (f :: fs) → fs ≠ [] → funcs self' = Some fs →
  ∃ ls',
    docexport self' (lit "lines") = Ok (OutLines ls') ∧
    docexport self (lit "lines") =
      Ok (OutLines
            (split newline
               (replace (substring f) (lit "docimport") (lit "docexport")
                ++ lit ";") ++ [] :: ls')).
Proof.
  intros Hfs Hne Hfs'. eexists.
  rewrite (docexport_spec _ _ _ Hfs), (docexport_spec _ _ _ Hfs').
  destruct (decide (lit "lines" = lit "lines")) as [_|Hn]; [|done].
  split; [done|]. destruct fs as [|f' fs]; [done|].
  cbn [exported map]. rewrite join_cons2.
  change ([newline; newline] ++ ?r) with (newline :: newline :: r).
  rewrite split_app_sep, split_cons.
  change (Ascii.eqb newline newline) with true. done.
Qed.

Lemma docexport_lines_cons_witness :
  ∃ ls',
    docexport (mkDocsync None None (funcs session_exported)) (lit "lines") =
      Ok (OutLines ls') ∧
    docexport
      (mkDocsync None None
         (Some (default [] (funcs session_after_scan) ++
                default [] (funcs session_exported)))) (lit "lines") =
      Ok (OutLines
            (split newline (lit "/** [docexport g] *//** doc
*/
int g(a);") ++ [] :: ls')).
Proof.
  destruct (funcs session_after_scan) as [[|f [|]]|] eqn:Hf;
    try (vm_compute in Hf; discriminate).
  destruct (funcs session_exported) as [[|f' [|]]|] eqn:Hf';
    try (vm_compute in Hf'; discriminate).
  assert (replace (substring f) (lit "docimport") (lit "docexport") ++ lit ";"
          = lit "/** [docexport g] *//** doc
*/
int g(a);") as <-.
  { vm_compute in Hf. injection Hf as <-. vm_compute. reflexivity. }
  by apply (docexport_lines_cons _ _ f [f']).
Defined.

(** * The matches chosen by the rule *)

Section Chosen.

Implicit Types (k : cont) (s w text : str) (m : marks).

(** [func_re] is the matching rule. *)
Lemma func_re_rule : func_re = matching_rule.
Proof. reflexivity. Qed.

Lemma best_derives re : ∀ pos s w m m',
  best re pos s w m m' → derives re pos w m m'.
Proof.
  induction re as [|it re IH]; intros pos s w m m'; simpl; [done|].
  intros (w1 & w2 & -> & Hit & H & _). exists w1, w2. eauto.
Qed.

(** What an item lets through is the first word, in the order of
    [better], after which the rest of the pattern succeeds. *)
Lemma step_best it k pos s m r :
  step it k pos s m = Some r →
  ∃ w1 s1, s = w1 ++ s1 ∧ item_lang it w1 ∧
           k (pos + length w1) s1 (mark it pos m) = Some r ∧
           ∀ w1' s1', item_lang it w1' → better it w1' w1 → s = w1' ++ s1' →
                      k (pos + length w1') s1' (mark it pos m) = None.
Proof.
  destruct it as [p q|a b| |]; cbn [step mark better item_lang].
  - destruct q.
    + destruct s as [|c s]; [done|]. destruct (p c) eqn:Hp; [|done].
      intros H. exists [c], s. simpl. rewrite Nat.add_1_r.
      repeat split; [eauto|done|done].
    + destruct s as [|c s].
      { intros H. exists [], []. rewrite Nat.add_0_r.
        repeat split; [by left|done|].
        intros w1' s1' [->|(a & -> & _)] Hb Hs; [simpl in Hb; lia|done]. }
      destruct (p c) eqn:Hp.
      * intros H. apply orelse_Some in H as [H|[Hn H]].
        -- exists [c], s. simpl. rewrite Nat.add_1_r.
           repeat split; [eauto|done|].
           intros w1' s1' [->|(a & -> & _)] Hb Hs; simpl in Hb; lia.
        -- exists [], (c :: s). rewrite Nat.add_0_r.
           repeat split; [by left|done|].
           intros w1' s1' [->|(a & -> & _)] Hb Hs; [simpl in Hb; lia|].
           injection Hs as <- <-. simpl. by rewrite Nat.add_1_r.
      * intros H. exists [], (c :: s). rewrite Nat.add_0_r.
        repeat split; [by left|done|].
        intros w1' s1' [->|(a & -> & Ha)] Hb Hs; [simpl in Hb; lia|].
        injection Hs as <- <-. congruence.
    + intros H. apply greedy_longest in H as (w & s' & -> & Hw & Hk & Hlong).
      exists w, s'. repeat split; [done|done|].
      intros w1' s1' Hw' Hb Hs. by apply Hlong.
    + destruct s as [|c s]; [done|]. destruct (p c) eqn:Hp; [|done].
      intros H. apply greedy_longest in H as (w & s' & -> & Hw & Hk & Hlong).
      exists (c :: w), s'. simpl. rewrite <- Nat.add_succ_comm.
      repeat split; [done|by constructor|done|].
      intros [|c' w1'] s1' [Hne Hw'] Hb Hs; [done|].
      simpl in Hs. injection Hs as <- Hs. inversion Hw'; subst.
      simpl. rewrite <- Nat.add_succ_comm. apply Hlong; [done|done|].
      simpl in Hb. lia.
    + intros H. apply lazy_first in H as (w & s' & -> & Hw & Hk & Hfirst).
      exists w, s'. repeat split; [done|done|].
      intros w1' s1' Hw' Hb Hs. specialize (Hfirst (length w1') Hb).
      by rewrite Hs, drop_app_length in Hfirst.
  - intros H. apply orelse_Some in H as [H|[Hn H]].
    + apply literal_sound in H as (s' & -> & Hk). exists a, s'.
      repeat split; [by left|done|].
      intros w1' s1' _ (_ & Hab & Hne) _. congruence.
    + apply literal_sound in H as (s' & -> & Hk). exists b, s'.
      repeat split; [by right|done|].
      intros w1' s1' _ (-> & _ & _) Hs. rewrite Hs in Hn.
      by rewrite literal_complete in Hn.
  - intros H. exists [], s. rewrite Nat.add_0_r. repeat split; done.
  - intros H. exists [], s. rewrite Nat.add_0_r. repeat split; done.
Qed.

(** A successful run consumed the word that the preferences choose. *)
Lemma run_best re : ∀ pos s m e m',
  run re pos s m = Some (e, m') →
  ∃ w s', s = w ++ s' ∧ e = pos + length w ∧ best re pos s w m m'.
Proof.
  induction re as [|it re IH]; intros pos s m e m' H; simpl in H.
  - injection H as <- <-. exists [], s. simpl. rewrite Nat.add_0_r. auto.
  - apply step_best in H as (w1 & s1 & -> & Hit & Hk & Hbest).
    apply IH in Hk as (w2 & s' & -> & -> & Hb).
    exists (w1 ++ w2), s'. rewrite <- app_assoc, length_app.
    split; [done|]. split; [lia|]. cbn [best]. exists w1, w2.
    rewrite drop_app_length. repeat split; [done|done|].
    intros w1' s1' Hit' Hbetter Hs (w2' & s2' & m2 & -> & Hd).
    specialize (Hbest w1' _ Hit' Hbetter Hs).
    destruct (run_complete _ _ _ s2' _ _ Hd) as [r Hr].
    by rewrite Hr in Hbest.
Qed.

Lemma prefix_same_length (a b x y : str) :
  a ++ x = b ++ y → length a = length b → a = b.
Proof. intros H Hlen. by apply app_inj_1 in H as [-> _]. Qed.

(** The preferences choose one word, and one pair of marks. *)
Lemma best_functional re : ∀ pos s w v m m1 m2 s1 s2,
  s = w ++ s1 → s = v ++ s2 →
  best re pos s w m m1 → best re pos s v m m2 → w = v ∧ m1 = m2.
Proof.
  induction re as [|it re IH]; intros pos s w v m m1 m2 s1 s2 Hw Hv; simpl.
  - by intros [-> ->] [-> ->].
  - intros (w1 & w2 & -> & Hit1 & Hb1 & Hno1) (v1 & v2 & -> & Hit2 & Hb2 & Hno2).
    rewrite <- app_assoc in Hw, Hv.
    assert (∀ x y x2 y2 mx, item_lang it x → s = x ++ x2 ++ y2 →
              best re (pos + length x) (drop (length x) s) x2 (mark it pos m) mx →
              (∀ w1' s1', item_lang it w1' → better it w1' y → s = w1' ++ s1' →
                 ¬ ∃ w2' s2' m2, s1' = w2' ++ s2' ∧
                     derives re (pos + length w1') w2' (mark it pos m) m2) →
              ¬ better it x y) as Hnot.
    { intros x y x2 y2 mx Hx Hs Hbx Hno Hbetter.
      apply (Hno x (x2 ++ y2) Hx Hbetter Hs).
      exists x2, y2, mx. split; [done|]. by eapply best_derives. }
    pose proof (Hnot _ _ _ _ _ Hit1 Hw Hb1 Hno2) as Hn1.
    pose proof (Hnot _ _ _ _ _ Hit2 Hv Hb2 Hno1) as Hn2.
    assert (w1 = v1) as <-.
    { assert (w1 ++ w2 ++ s1 = v1 ++ v2 ++ s2) as Heq by congruence.
      destruct it as [p []|a b| |]; cbn [better item_lang] in *.
      - destruct Hit1 as (a & -> & _), Hit2 as (b & -> & _).
        simpl in Heq. by injection Heq as ->.
      - apply (prefix_same_length _ _ _ _ Heq). lia.
      - apply (prefix_same_length _ _ _ _ Heq). lia.
      - apply (prefix_same_length _ _ _ _ Heq). lia.
      - apply (prefix_same_length _ _ _ _ Heq). lia.
      - destruct Hit1 as [-> | ->], Hit2 as [-> | ->]; try done.
        + destruct (decide (a = b)) as [|Hne]; [done|]. by destruct Hn1.
        + destruct (decide (b = a)) as [|Hne]; [done|]. destruct Hn2.
          repeat split; congruence.
      - congruence.
      - congruence. }
    assert (drop (length w1) s = w2 ++ s1) as Hd1
      by (by rewrite Hw, drop_app_length).
    assert (drop (length w1) s = v2 ++ s2) as Hd2
      by (by rewrite Hv, drop_app_length).
    destruct (IH _ _ _ _ _ _ _ _ _ Hd1 Hd2 Hb1 Hb2) as [-> ->]. done.
Qed.

Lemma rule_block_at_iff text p : rule_block_at text p ↔ block_at text p.
Proof. done. Qed.

(** The record of the match at an offset is the match of the rule
    there. *)
Lemma to_func_rule_block text pos mt :
  pos ≤ length text →
  match_at func_re pos (drop pos text) = Some mt →
  rule_block text (to_func text mt).
Proof.
  intros Hpos H.
  destruct (to_func_tagged_block _ _ _ Hpos H) as (_ & _ & _ & Hlt).
  unfold match_at in H.
  destruct (run func_re pos (drop pos text) (0, 0)) as [[e [ns ne]]|] eqn:Hr;
    [|done].
  injection H as <-. cbn [m_end] in Hlt.
  apply run_best in Hr as (w & s' & Hs & -> & Hb).
  exists ns, ne. unfold to_func, group0, group_name.
  cbn [span substring name fst snd m_start m_end m_name].
  assert (slice text pos (pos + length w) = w) as ->.
  { unfold slice. replace (pos + length w - pos) with (length w) by lia.
    by rewrite Hs, take_app_length. }
  by rewrite <- func_re_rule.
Qed.

(** The matches of [finditer] are the matches of the rule, in order. *)
Lemma finditer_rule_blocks text :
  rule_blocks_from text 0 (map (to_func text) (finditer func_re text)).
Proof.
  assert (Forall (rule_block text) (map (to_func text) (finditer func_re text)))
    as Hall.
  { apply Forall_fmap, Forall_forall. intros mt Hin.
    unfold finditer in Hin. rewrite <- (drop_0 text) in Hin.
    apply (finditer_elem text mt (length text) 0) in Hin as (p & Hp & Hm);
      [|lia|lia].
    by apply (to_func_rule_block _ p). }
  pose proof (finditer_blocks_0 text) as Hb.
  induction Hb as [pos Hgap|pos f fs Hle Hgap Hf Hrest IH].
  - by constructor.
  - inversion Hall; subst. constructor; auto.
Qed.

Lemma rule_block_length text f :
  rule_block text f →
  snd (span f) = fst (span f) + length (substring f) ∧
  rule_block_at text (fst (span f)).
Proof.
  intros (ns & ne & [Hlt Hle] & Hsub & Hb & _). split.
  - rewrite Hsub. unfold slice. rewrite length_take, length_drop. lia.
  - exists (substring f), (drop (snd (span f)) text), (ns, ne).
    split; [|by eapply best_derives]. rewrite Hsub. unfold slice.
    rewrite <- (take_drop (snd (span f) - fst (span f))
                  (drop (fst (span f)) text)) at 1.
    f_equal. rewrite drop_drop. f_equal. lia.
Qed.

(** The text has one list of matches. *)
Lemma rule_blocks_from_unique text pos fs :
  rule_blocks_from text pos fs →
  ∀ fs', rule_blocks_from text pos fs' → fs' = fs.
Proof.
  induction 1 as [pos Hgap|pos f fs Hle Hgap Hf Hrest IH]; intros fs' H'.
  - inversion H' as [|? g gs Hle' _ Hg _]; subst; [done|].
    apply rule_block_length in Hg as [_ Hg]. by apply Hgap in Hg.
  - inversion H' as [? Hgap'|? g gs Hle' Hgap' Hg Hrest']; subst.
    { apply rule_block_length in Hf as [_ Hf]. by apply Hgap' in Hf. }
    destruct (rule_block_length _ _ Hf) as [Hfe Hfa].
    destruct (rule_block_length _ _ Hg) as [Hge Hga].
    assert (fst (span g) = fst (span f)) as Hst.
    { destruct (decide (fst (span g) < fst (span f))) as [Hlt|];
        [by destruct (Hgap (fst (span g)))|].
      destruct (decide (fst (span f) < fst (span g))) as [Hlt|];
        [by destruct (Hgap' (fst (span f)))|].
      lia. }
    destruct Hf as (ns & ne & Hfr & Hfs & Hfb & Hfn).
    destruct Hg as (ns' & ne' & Hgr & Hgs & Hgb & Hgn).
    rewrite Hst in Hgb.
    assert (substring g = substring f ∧ (ns', ne') = (ns, ne)) as [Hsub Hm].
    { eapply best_functional; [| |exact Hgb|exact Hfb].
      - rewrite Hgs, Hst. unfold slice. symmetry. apply take_drop.
      - rewrite Hfs. unfold slice. symmetry. apply take_drop. }
    injection Hm as -> ->.
    assert (g = f) as ->.
    { destruct f as [nf [sf ef] subf], g as [ng [sg eg] subg].
      cbn [name span substring fst snd] in *. subst.
      rewrite Hge, Hfe. by rewrite Hsub. }
    f_equal. by apply IH.
Qed.

Lemma rule_blocks_from_blocks text pos fs :
  rule_blocks_from text pos fs → blocks_from text pos fs.
Proof.
  induction 1 as [pos Hgap|pos f fs Hle Hgap Hf Hrest IH]; [by constructor|].
  constructor; [done|done| |done].
  destruct Hf as (ns & ne & Hr & Hs & Hb & Hn). exists ns, ne.
  repeat split; try done; try (by destruct Hr). by apply best_derives in Hb.
Qed.

End Chosen.

(** C2. The records of [search] are the matches of the matching rule in the
    text, from left to right, and [search] returns their number [N]: each
    record begins at the first offset, from the end of the previous one,
    where a word of the rule begins, and ends where the preferences of the
    rule put the end (the documentation body and the argument list as
    short as possible, every other repetition as long as possible).  The
    text has no other such list, so it fixes [N] and the records.  The
    spans are non-empty, within the text and pairwise non-overlapping, and
    each record carries the span, the text of the span, and the text
    captured by the group [name]. *)
Theorem search_finds_tagged_blocks (self : Docsync) (text : str) :
  ∃ self' fs,
    search self text = Ok (self', length fs) ∧
    funcs self' = Some fs ∧
    rule_blocks_from text 0 fs ∧
    (∀ fs', rule_blocks_from text 0 fs' → fs' = fs) ∧
    Forall (rule_block text) fs ∧
    (∀ i j fi fj, i < j → fs !! i = Some fi → fs !! j = Some fj →
                  snd (span fi) ≤ fst (span fj)).
Proof.
  pose proof (finditer_rule_blocks text) as Hb.
  exists (mkDocsync (start_after self (finditer func_re text))
            (end_after self (finditer func_re text))
            (Some (map (to_func text) (finditer func_re text)))),
    (map (to_func text) (finditer func_re text)).
  rewrite search_spec, length_map. repeat split; [done| | |].
  - by apply rule_blocks_from_unique.
  - apply Forall_fmap, Forall_forall. intros mt Hin.
    unfold finditer in Hin. rewrite <- (drop_0 text) in Hin.
    apply (finditer_elem text mt (length text) 0) in Hin as (p & Hp & Hm);
      [|lia|lia].
    by apply (to_func_rule_block _ p).
  - apply blocks_from_ordered with (text := text) (pos := 0).
    by apply rule_blocks_from_blocks.
Qed.

(** The two blocks of [text_two_blocks] are found one by one: the
    documentation body of the first stops at its own closer. *)
Example search_two_blocks :
  (λ r, match r with
        | Ok (self', n) => Some (n, span <$> default [] (funcs self'))
        | Raise _ => None
        end) (search init text_two_blocks) = Some (2, [(0, 39); (41, 80)]).
Proof. vm_compute. reflexivity. Qed.
